(** * Simple SDE solver: a shallow embedding of [solve_sde]

    The development follows [src/solve_sde.py].  The solver integrates
    dX = a(X,t) dt + b(X,t) dW with the strong order 1.0 stochastic
    Runge-Kutta scheme of Kloeden and Platen.

    - Numbers are kept behind the interface [Scalar]: the solver only uses
      [+ - * /], [np.sqrt], [**], the literals [0.5] and [2.0] and the
      conversion of Python integers.  No algebraic law is built in; the laws
      a statement needs appear as hypotheses of that statement.  The
      interface is instantiated twice, with exact rationals and with IEEE
      binary64 numbers.
    - numpy values are 0-d scalars or 1-d arrays, combined with numpy's
      broadcasting rules; a shape mismatch raises [ValueError].
    - Python exceptions, the module-level random generator and [print] are
      threaded through a state-and-error monad over an abstract world.
      Callbacks are computations in that monad: they may raise, draw random
      numbers or print.  They receive values, not views: a callback that
      writes into the row it is handed is outside the model. *)

From Stdlib Require Import String.
From Stdlib Require Import List ZArith Arith Lia Bool.
From Stdlib Require Import QArith Qcanon.
From Stdlib Require Import Floats Uint63.
Import ListNotations.

Set Implicit Arguments.
Local Open Scope nat_scope.

(* ------------------------------------------------------------------ *)
(** ** Scalars *)

(** The arithmetic of numpy's float64 as far as [solve_sde] uses it. *)
Class Scalar (R : Type) : Type := {
  fadd : R -> R -> R;
  fsub : R -> R -> R;
  fmul : R -> R -> R;
  fdiv : R -> R -> R;
  fsqrt : R -> R;          (* np.sqrt *)
  fpow : R -> R -> R;      (* ** *)
  of_int : Z -> R;         (* a Python int used in float arithmetic *)
  half : R;                (* the literal 0.5 *)
  two : R                  (* the literal 2.0 *)
}.

Definition zero {R} `{Scalar R} : R := of_int 0.
Definition one {R} `{Scalar R} : R := of_int 1.

(* ------------------------------------------------------------------ *)
(** ** Exceptions and the state-and-error monad *)

Inductive exn : Type :=
| TypeError
| ValueError
| IndexError
| UserError (msg : string).

Inductive outcome (A : Type) : Type :=
| Ok (a : A)
| Raise (e : exn).
Arguments Ok {A} a.
Arguments Raise {A} e.

Definition M (W A : Type) : Type := W -> outcome A * W.

Definition ret {W A} (a : A) : M W A := fun w => (Ok a, w).

Definition raise {W A} (e : exn) : M W A := fun w => (Raise e, w).

Definition lift {W A} (o : outcome A) : M W A := fun w => (o, w).

Definition bind {W A B} (m : M W A) (k : A -> M W B) : M W B :=
  fun w =>
    match m w with
    | (Ok a, w') => k a w'
    | (Raise e, w') => (Raise e, w')
    end.

Declare Scope sde_scope.
Delimit Scope sde_scope with sde.
Notation "x <- m ;; k" := (bind m (fun x => k))
  (at level 61, m at next level, right associativity) : sde_scope.
Notation "m ;;; k" := (bind m (fun _ => k))
  (at level 61, right associativity) : sde_scope.
Local Open Scope sde_scope.

(** The world a call runs in: numpy's global generator and standard output.
    [gauss] is one draw of the generator, [print] one printed line. *)
Class World (R W : Type) : Type := {
  gauss : W -> R * W;
  print : string -> W -> W
}.

(* ------------------------------------------------------------------ *)
(** ** numpy values and broadcasting *)

Inductive value (R : Type) : Type :=
| VScalar (x : R)
| VVec (l : list R).
Arguments VScalar {R} x.
Arguments VVec {R} l.

Fixpoint map2 {A B C} (f : A -> B -> C) (l1 : list A) (l2 : list B) : list C :=
  match l1, l2 with
  | a :: l1', b :: l2' => f a b :: map2 f l1' l2'
  | _, _ => []
  end.

(** A binary ufunc: element-wise, a scalar or a length-1 array is stretched. *)
Definition bcast {R} (f : R -> R -> R) (u v : value R) : outcome (value R) :=
  match u, v with
  | VScalar x, VScalar y => Ok (VScalar (f x y))
  | VScalar x, VVec l => Ok (VVec (map (f x) l))
  | VVec l, VScalar y => Ok (VVec (map (fun a => f a y) l))
  | VVec l1, VVec l2 =>
      if length l1 =? length l2 then Ok (VVec (map2 f l1 l2))
      else match l1, l2 with
           | [x], _ => Ok (VVec (map (f x) l2))
           | _, [y] => Ok (VVec (map (fun a => f a y) l1))
           | _, _ => Raise ValueError
           end
  end.

(** Stretching a value to a row of [d] entries, as a slice assignment does. *)
Definition fit {R} (d : nat) (v : value R) : outcome (list R) :=
  match v with
  | VScalar x => Ok (repeat x d)
  | VVec l =>
      if length l =? d then Ok l
      else match l with
           | [x] => Ok (repeat x d)
           | _ => Raise ValueError
           end
  end.

Definition matrix (R : Type) : Type := list (list R).

Fixpoint set_nth {A} (i : nat) (x : A) (l : list A) : list A :=
  match l, i with
  | [], _ => []
  | _ :: t, O => x :: t
  | h :: t, S j => h :: set_nth j x t
  end.

(** [ti[n]] *)
Definition index {A} (l : list A) (n : nat) : outcome A :=
  match nth_error l n with
  | Some x => Ok x
  | None => Raise IndexError
  end.

(** [Y[n, :]] *)
Definition row {R} (Y : matrix R) (n : nat) : outcome (value R) :=
  match nth_error Y n with
  | Some r => Ok (VVec r)
  | None => Raise IndexError
  end.

(** [Y[n, :] = v] *)
Definition assign_row {R} (n : nat) (v : value R) (Y : matrix R)
  : outcome (matrix R) :=
  match nth_error Y n with
  | None => Raise IndexError
  | Some r =>
      match fit (length r) v with
      | Ok r' => Ok (set_nth n r' Y)
      | Raise e => Raise e
      end
  end.

(** What [solve_sde] hands back: [None] or the pair [(ti, Y)]. *)
Inductive retval (R : Type) : Type :=
| RetNone
| RetPair (ti : list R) (Y : matrix R).
Arguments RetNone {R}.
Arguments RetPair {R} ti Y.

(** The caller's [t, Y = solve_sde(...)]: unpacking [None] is a TypeError. *)
Definition unpack2 {R} (r : retval R) : outcome (list R * matrix R) :=
  match r with
  | RetNone => Raise TypeError
  | RetPair ti Y => Ok (ti, Y)
  end.

(* ------------------------------------------------------------------ *)
(** ** The solver *)

Section Solver.
Context {R W : Type} `{Scalar R} `{World R W}.

(** A Python callable of two positional arguments. *)
Definition callback : Type := value R -> R -> M W (value R).

(** The argument of [randn]: an int, or (by mistake of the caller) a
    shape tuple. *)
Inductive randn_arg : Type :=
| ArgInt (n : nat)
| ArgShape (dims : list nat).

(** [n] successive draws of the generator. *)
Fixpoint draws (n : nat) (w : W) : list R * W :=
  match n with
  | O => ([], w)
  | S k => let (x, w1) := gauss w in
           let (xs, w2) := draws k w1 in
           (x :: xs, w2)
  end.

(** [np.random.randn(d0)]: its dimensions are separate integer arguments;
    a tuple in the place of an integer is rejected with a TypeError. *)
Definition randn (a : randn_arg) : M W (list R) :=
  match a with
  | ArgInt n => fun w => let (xs, w') := draws n w in (Ok xs, w')
  | ArgShape _ => raise TypeError
  end.

(** [np.array(v).shape or 1]: the empty shape of a scalar is falsy. *)
Definition shape_or_1 (v : value R) : randn_arg :=
  match v with
  | VScalar _ => ArgInt 1
  | VVec l => ArgShape [length l]
  end.

(** [lambda Y, dt: randn(len(X0)) * np.sqrt(dt)] *)
Definition default_wiener (X0 : list R) : callback :=
  fun _ dt =>
    z <- randn (ArgInt (length X0)) ;;
    lift (bcast fmul (VVec z) (VScalar (fsqrt dt))).

(** [np.zeros((N, d))] *)
Definition np_zeros (N : Z) (d : nat) : outcome (matrix R) :=
  if (N <? 0)%Z then Raise ValueError
  else Ok (repeat (repeat zero d) (Z.to_nat N)).

(** [np.arange(N)*dt + t0] *)
Definition time_grid (N : Z) (dt t0 : R) : list R :=
  map (fun n => fadd (fmul (of_int (Z.of_nat n)) dt) t0)
      (seq 0 (Z.to_nat N)).

(** The right-hand side of the update, in Python's evaluation order. *)
Definition rhs (alfa beta DW : callback) (ti : list R) (dt Dn Wn : R)
           (n : nat) (Y : matrix R) : M W (value R) :=
  t <- lift (index ti n) ;;
  y <- lift (row Y n) ;;
  a <- alfa y t ;;
  y <- lift (row Y n) ;;
  b <- beta y t ;;
  y <- lift (row Y n) ;;
  DWn <- DW y dt ;;
  (* Y[n, :] + a*Dn + b*DWn*Wn *)
  y <- lift (row Y n) ;;
  aDn <- lift (bcast fmul a (VScalar Dn)) ;;
  s1 <- lift (bcast fadd y aDn) ;;
  bDW <- lift (bcast fmul b DWn) ;;
  bDWW <- lift (bcast fmul bDW (VScalar Wn)) ;;
  s2 <- lift (bcast fadd s1 bDWW) ;;
  (* 0.5*(beta(Y[n, :] + a*Dn + b*np.sqrt(Dn), t) - b) *)
  y <- lift (row Y n) ;;
  aDn' <- lift (bcast fmul a (VScalar Dn)) ;;
  p1 <- lift (bcast fadd y aDn') ;;
  bsq <- lift (bcast fmul b (VScalar (fsqrt Dn))) ;;
  supp <- lift (bcast fadd p1 bsq) ;;
  bs <- beta supp t ;;
  df <- lift (bcast fsub bs b) ;;
  h <- lift (bcast fmul (VScalar half) df) ;;
  (* (DWn**2.0 - Dn)/np.sqrt(Dn) *)
  sq <- lift (bcast fpow DWn (VScalar two)) ;;
  q <- lift (bcast fsub sq (VScalar Dn)) ;;
  hq <- lift (bcast fmul h q) ;;
  c <- lift (bcast fdiv hq (VScalar (fsqrt Dn))) ;;
  lift (bcast fadd s2 c).

(** One turn of the loop: [Y[n+1, :] = rhs]. *)
Definition step (alfa beta DW : callback) (ti : list R) (dt Dn Wn : R)
           (n : nat) (Y : matrix R) : M W (matrix R) :=
  v <- rhs alfa beta DW ti dt Dn Wn n Y ;;
  lift (assign_row (n + 1) v Y).

(** [for n in ns: Y = body n Y] *)
Fixpoint for_each (ns : list nat) (body : nat -> matrix R -> M W (matrix R))
         (Y : matrix R) : M W (matrix R) :=
  match ns with
  | [] => ret Y
  | n :: rest => Y' <- body n Y ;; for_each rest body Y'
  end.

(** [range(N-1)] *)
Definition range (k : Z) : list nat := seq 0 (Z.to_nat k).

Definition error_message : string := "Error: SDE not defined.".

(** [print s] *)
Definition py_print (s : string) : M W unit :=
  fun w => (Ok tt, print s w).

(** Line 83:
    [randn(np.array(alfa(0, 0)).shape or 1) if X0 is None else np.array(X0)] *)
Definition initial_state (alfa : callback) (X0 : option (list R))
  : M W (list R) :=
  match X0 with
  | None => v <- alfa (VScalar zero) zero ;; randn (shape_or_1 v)
  | Some x => ret x
  end.

(** Line 84: the default closes over the (rebound) [X0]. *)
Definition wiener_of (DW : option callback) (X0 : list R) : callback :=
  match DW with
  | None => default_wiener X0
  | Some f => f
  end.

Definition solve_sde (alfa beta : option callback) (X0 : option (list R))
           (dt : R) (N : Z) (t0 : R) (DW : option callback)
  : M W (retval R) :=
  match alfa, beta with
  | Some alfa, Some beta =>
      X0 <- initial_state alfa X0 ;;
      let DW := wiener_of DW X0 in
      Y <- lift (np_zeros N (length X0)) ;;
      let ti := time_grid N dt t0 in
      Y <- lift (assign_row 0 (VVec X0) Y) ;;
      let Dn := dt in
      let Wn := one in
      Y <- for_each (range (N - 1)) (step alfa beta DW ti dt Dn Wn) Y ;;
      ret (RetPair ti Y)
  | _, _ =>
      py_print error_message ;;;
      ret RetNone
  end.

End Solver.

(* ------------------------------------------------------------------ *)
(** ** What the specification calls things *)

Section SpecWords.
Context {R : Type} `{Scalar R}.

(** Component [i] of a value under broadcasting: a scalar and a length-1
    array have the same component everywhere. *)
Definition comp (v : value R) (i : nat) : option R :=
  match v with
  | VScalar x => Some x
  | VVec [x] => Some x
  | VVec l => nth_error l i
  end.

(** Step 2 of the algorithm: [Y_n + a*dt + b*sqrt(dt)], one component. *)
Definition spec_support (y a b dt : R) : R :=
  fadd (fadd y (fmul a dt)) (fmul b (fsqrt dt)).

(** Step 4 of the algorithm:
    [Y_n + a*dt + b*dW + 0.5*(b_support - b)*(dW^2 - dt)/sqrt(dt)]. *)
Definition spec_update (y a b dW bs dt : R) : R :=
  fadd (fadd (fadd y (fmul a dt)) (fmul b dW))
       (fdiv (fmul (fmul half (fsub bs b)) (fsub (fpow dW two) dt))
             (fsqrt dt)).

(** A diffusion value that is zero: the scalar 0 or the zero vector of
    dimension [d]. *)
Definition zero_value (d : nat) (v : value R) : Prop :=
  v = VScalar zero \/ v = VVec (repeat zero d).

(** A value of the shape of the state: a scalar or a vector of length [d]. *)
Definition shaped (d : nat) (v : value R) : Prop :=
  match v with
  | VScalar _ => True
  | VVec l => length l = d
  end.

End SpecWords.

(* ------------------------------------------------------------------ *)
(** ** The relation a turn of the loop establishes *)

Section StepRelation.
Context {R W : Type} `{Scalar R} `{World R W}.
Variables alfa beta DW : @callback R W.
Variable ti : list R.
Variables dt Dn Wn : R.

(** What turn [n] establishes between row [n] and the new row [n+1]. *)
Definition srk_rel (n : nat) (yn r : list R) : Prop :=
  exists t a b dW supp bs w0 w1 w2 w3 w4,
    nth_error ti n = Some t /\
    alfa (VVec yn) t w0 = (Ok a, w1) /\
    beta (VVec yn) t w1 = (Ok b, w2) /\
    DW (VVec yn) dt w2 = (Ok dW, w3) /\
    beta supp t w3 = (Ok bs, w4) /\
    forall i yi, nth_error yn i = Some yi -> i < length r ->
      exists ai bi dWi bsi,
        comp a i = Some ai /\ comp b i = Some bi /\
        comp dW i = Some dWi /\ comp bs i = Some bsi /\
        comp supp i =
          Some (fadd (fadd yi (fmul ai Dn)) (fmul bi (fsqrt Dn))) /\
        nth_error r i =
          Some (fadd (fadd (fadd yi (fmul ai Dn)) (fmul (fmul bi dWi) Wn))
                     (fdiv (fmul (fmul half (fsub bsi bi))
                                 (fsub (fpow dWi two) Dn))
                           (fsqrt Dn))).

End StepRelation.

(* ------------------------------------------------------------------ *)
(** ** Kinds of callbacks and computations *)

Section Callbacks.
Context {R W : Type} `{Scalar R} `{World R W}.

(** A callback that is a function of its arguments alone: it neither
    reads nor changes the world. *)
Definition pure_cb (f : value R -> R -> outcome (value R))
  : @callback R W :=
  fun y t => lift (f y t).

(** In the words of the specification: [d] standard-normal draws, each
    scaled by [sqrt(dt)]. *)
Definition scaled_normal (d : nat) : @callback R W :=
  fun _ dt w =>
    let (z, w') := draws d w in
    (Ok (VVec (map (fun x => fmul x (fsqrt dt)) z)), w').

(** A computation whose result does not depend on the world and that
    leaves the world alone. *)
Definition stateless {A} (m : M W A) : Prop :=
  exists o, forall w, m w = (o, w).


(** A callback that returns a value of the state's shape whenever it is
    handed a state of [d] variables; on anything else it may do what it
    likes. *)
Definition regular_on (d : nat) (cb : @callback R W) : Prop :=
  forall l t w, length l = d ->
    exists v w', cb (VVec l) t w = (Ok v, w') /\ shaped d v.

(** A callback that does not look at the time. *)
Definition autonomous (cb : @callback R W) : Prop :=
  forall y t t' w, cb y t w = cb y t' w.

(** The result of a call with the time grid replaced. *)
Definition with_grid (ti : list R) (r : outcome (retval R) * W)
  : outcome (retval R) * W :=
  match r with
  | (Ok (RetPair _ Y), w) => (Ok (RetPair ti Y), w)
  | _ => r
  end.


(** The world after [k] draws of the generator. *)
Definition after_draws (k : nat) (w : W) : W := snd (draws k w).

End Callbacks.

(* ------------------------------------------------------------------ *)
(** ** The reference Euler integrator *)

Section EulerReference.
Context {R : Type} `{Scalar R}.

Definition obind {A B} (o : outcome A) (k : A -> outcome B) : outcome B :=
  match o with
  | Ok a => k a
  | Raise e => Raise e
  end.

(** The reference integrator of dX = a(X,t) dt, in the words of the
    specification: [Y[n+1, :] = Y[n, :] + a(Y[n, :], t_n)*dt]. *)
Definition euler_rhs (fa : value R -> R -> outcome (value R))
           (ti : list R) (dt : R) (n : nat) (Y : matrix R)
  : outcome (value R) :=
  obind (index ti n) (fun t =>
  obind (row Y n) (fun y =>
  obind (fa y t) (fun a =>
  obind (bcast fmul a (VScalar dt)) (fun adt =>
  bcast fadd y adt)))).

Definition euler_update (fa : value R -> R -> outcome (value R))
           (ti : list R) (dt : R) (n : nat) (Y : matrix R)
  : outcome (matrix R) :=
  obind (euler_rhs fa ti dt n Y) (fun v => assign_row (n + 1) v Y).

Fixpoint euler_loop (ns : list nat)
         (body : nat -> matrix R -> outcome (matrix R)) (Y : matrix R)
  : outcome (matrix R) :=
  match ns with
  | [] => Ok Y
  | n :: rest => obind (body n Y) (euler_loop rest body)
  end.

Definition euler_ode (fa : value R -> R -> outcome (value R))
           (x0 : list R) (dt : R) (N : Z) (t0 : R)
  : outcome (retval R) :=
  obind (np_zeros N (length x0)) (fun Y =>
  obind (assign_row 0 (VVec x0) Y) (fun Y =>
  obind (euler_loop (range (N - 1))
                    (euler_update fa (time_grid N dt t0) dt) Y) (fun Y =>
  Ok (RetPair (time_grid N dt t0) Y)))).

End EulerReference.

(* ------------------------------------------------------------------ *)
(** ** The script at the end of the module *)

Section Script.
Context {R W : Type} `{Scalar R} `{World R W}.

(** [Y[k]] in a callback.  The state a callback is handed is a row of the
    trajectory or the support point, both arrays, or the Python int 0 of
    the probe [alfa(0, 0)], which cannot be subscripted. *)
Definition item (y : value R) (k : nat) : outcome R :=
  match y with
  | VScalar _ => Raise TypeError
  | VVec l => index l k
  end.

(** The Wiener process, dX = 0 dt + 1 dW:
    [alfa_wp = lambda X, t: 0] and [beta_wp = lambda X, t: 1]. *)
Definition alfa_wp : @callback R W :=
  pure_cb (fun _ _ => Ok (VScalar (of_int 0))).

Definition beta_wp : @callback R W :=
  pure_cb (fun _ _ => Ok (VScalar (of_int 1))).

(** The stochastic Lorenz system.  The literals 10.0, 28.0, 8.0 and 3.0
    are the floats of these integers.
    [xL = lambda Y, t: 10.0 * (Y[1] - Y[0])] *)
Definition xL (y : value R) (t : R) : outcome R :=
  obind (item y 1) (fun y1 =>
  obind (item y 0) (fun y0 =>
  Ok (fmul (of_int 10) (fsub y1 y0)))).

(** [yL = lambda Y, t: 28.0 * Y[0] - Y[1] - Y[0] * Y[2]] *)
Definition yL (y : value R) (t : R) : outcome R :=
  obind (item y 0) (fun y0 =>
  obind (item y 1) (fun y1 =>
  obind (item y 0) (fun y0' =>
  obind (item y 2) (fun y2 =>
  Ok (fsub (fsub (fmul (of_int 28) y0) y1) (fmul y0' y2)))))).

(** [zL = lambda Y, t: Y[0] * Y[1] - 8.0/3.0 * Y[2]] *)
Definition zL (y : value R) (t : R) : outcome R :=
  obind (item y 0) (fun y0 =>
  obind (item y 1) (fun y1 =>
  obind (item y 2) (fun y2 =>
  Ok (fsub (fmul y0 y1) (fmul (fdiv (of_int 8) (of_int 3)) y2))))).

(** [alfa_sl = lambda Y, t: np.array([xL(Y, t), yL(Y, t), zL(Y, t)])] *)
Definition alfa_sl : @callback R W :=
  pure_cb (fun y t =>
    obind (xL y t) (fun x =>
    obind (yL y t) (fun y' =>
    obind (zL y t) (fun z =>
    Ok (VVec [x; y'; z]))))).

(** [beta_sl = lambda Y, t: np.array([0.5*Y[1], 1, 1])] *)
Definition beta_sl : @callback R W :=
  pure_cb (fun y t =>
    obind (item y 1) (fun y1 =>
    Ok (VVec [fmul half y1; of_int 1; of_int 1]))).

(** The path of partial sums [y, y + z1*s, y + z1*s + z2*s, ...], one
    variable wide. *)
Fixpoint running_sum (s y : R) (zs : list R) : matrix R :=
  match zs with
  | [] => [[y]]
  | z :: rest => [y] :: running_sum s (fadd y (fmul z s)) rest
  end.

End Script.

(* ------------------------------------------------------------------ *)
(** ** Concrete runs: exact rational arithmetic *)

(** Exact rationals as scalars.  The square root is exact on squares of
    rationals in lowest terms (and rounds down otherwise); the power takes
    the integer part of the exponent. *)
Definition qc_sqrt (q : Qc) : Qc := Q2Qc (Z.sqrt (Qnum q) # Pos.sqrt (Qden q)).

Definition qc_pow (x y : Qc) : Qc :=
  Qcpower x (Z.to_nat (Qnum y / Zpos (Qden y))).

#[global] Instance Qc_scalar : Scalar Qc := {|
  fadd := Qcplus;
  fsub := Qcminus;
  fmul := Qcmult;
  fdiv := Qcdiv;
  fsqrt := qc_sqrt;
  fpow := qc_pow;
  of_int := fun z => Q2Qc (inject_Z z);
  half := Q2Qc (1 # 2);
  two := Q2Qc 2
|}.

(** A world with a stand-in generator: the state of the generator is a
    counter, a draw returns the counter and advances it. *)
Record console : Type := { seed : Z; stdout : list string }.

#[global] Instance counter_world : World Qc console := {|
  gauss := fun w => (Q2Qc (inject_Z (seed w)),
                     {| seed := seed w + 1; stdout := stdout w |});
  print := fun s w => {| seed := seed w; stdout := stdout w ++ [s] |}
|}.

Definition w0 : console := {| seed := 3; stdout := [] |}.

(** The grid and the trajectory of a finished call. *)
Definition times_of {R W} (r : outcome (retval R) * W) : list R :=
  match fst r with
  | Ok (RetPair ti _) => ti
  | _ => []
  end.

Definition trajectory_of {R W} (r : outcome (retval R) * W) : matrix R :=
  match fst r with
  | Ok (RetPair _ Y) => Y
  | _ => []
  end.

(** dX = -X dt + X^2 dW in two variables. *)
Definition decay : @callback Qc console :=
  pure_cb (fun y _ => bcast fsub (VScalar zero) y).

(** The diffusion [X^2], component by component. *)
Definition squared : @callback Qc console :=
  pure_cb (fun y _ => bcast fmul y y).

Definition no_diffusion : value Qc -> Qc -> outcome (value Qc) :=
  fun _ _ => Ok (VScalar zero).

Definition unit_noise : value Qc -> Qc -> outcome (value Qc) :=
  fun _ _ => Ok (VScalar one).

Definition start : list Qc := [Q2Qc 1; Q2Qc 2].

Definition demo_run : outcome (retval Qc) * console :=
  solve_sde (Some decay) (Some squared) (Some start)
            (Q2Qc 1) 3 (Q2Qc 0) None w0.

(** A callback that fails as soon as it is called. *)
Definition failing : @callback Qc console :=
  fun _ _ => raise (UserError "called").

(** The linear-drift scenario of the specification: dX = -X dt. *)
Definition minus_x : value Qc -> Qc -> outcome (value Qc) :=
  fun y _ => bcast fsub (VScalar zero) y.

(** The Wiener-process example of the docstring, with a noise source that
    always returns 1, called twice in a row without [X0]. *)
Definition wiener_example (w : console) : outcome (retval Qc) * console :=
  solve_sde (Some (pure_cb no_diffusion)) (Some (pure_cb unit_noise)) None
            (Q2Qc 1) 2 (Q2Qc 0) (Some (pure_cb unit_noise)) w.


(** A diffusion that is the constant 1, and dX = -X dt + dW in two
    variables. *)
Definition constant_one : Qc -> value Qc := fun _ => VScalar one.

Definition additive_run : outcome (retval Qc) * console :=
  solve_sde (Some decay) (Some (pure_cb (fun _ t => Ok (constant_one t))))
            (Some start) (Q2Qc 1) 3 (Q2Qc 0) None w0.

(** The diffusion [X^2] as a function, and the state where it and the
    drift [-X] vanish. *)
Definition square : value Qc -> Qc -> outcome (value Qc) :=
  fun y _ => bcast fmul y y.

Definition origin : list Qc := [Q2Qc 0; Q2Qc 0].

(** A drift of three variables. *)
Definition spatial_drift : @callback Qc console :=
  pure_cb (fun _ _ => Ok (VVec [Q2Qc 1; Q2Qc 2; Q2Qc 3])).

(** The Wiener process of the script with [dt = 1] and [N = 3]. *)
Definition wiener_run : outcome (retval Qc) * console :=
  solve_sde (Some alfa_wp) (Some beta_wp) None (Q2Qc 1) 3 (Q2Qc 0) None w0.

(** The Lorenz system of the script from [[1, 2, 3]] with [dt = 1/4]. *)
Definition lorenz_start : list Qc := [Q2Qc 1; Q2Qc 2; Q2Qc 3].

Definition lorenz_run : outcome (retval Qc) * console :=
  solve_sde (Some alfa_sl) (Some beta_sl) (Some lorenz_start)
            (Q2Qc (1 # 4)) 3 (Q2Qc 0) None w0.

(* ------------------------------------------------------------------ *)
(** ** Concrete runs: IEEE binary64 arithmetic *)

(** The conversion of a Python int (below 2^63 in size) to a double. *)
Definition float_of_Z (z : Z) : float :=
  match z with
  | Z0 => 0%float
  | Zpos _ => PrimFloat.of_uint63 (Uint63.of_Z z)
  | Zneg p => PrimFloat.opp (PrimFloat.of_uint63 (Uint63.of_Z (Zpos p)))
  end.

(** numpy evaluates a power with the scalar exponent 2.0 as the square
    [x*x], the only power [solve_sde] takes; the exponents 1.0 and 0.0 are
    as simple, any other exponent is outside this instance. *)
Definition float_pow (x y : float) : float :=
  if PrimFloat.eqb y 2 then PrimFloat.mul x x
  else if PrimFloat.eqb y 1 then x
  else if PrimFloat.eqb y 0 then 1%float
  else nan.

#[global] Instance binary64 : Scalar float := {|
  fadd := PrimFloat.add;
  fsub := PrimFloat.sub;
  fmul := PrimFloat.mul;
  fdiv := PrimFloat.div;
  fsqrt := PrimFloat.sqrt;
  fpow := float_pow;
  of_int := float_of_Z;
  half := 0.5%float;
  two := 2%float
|}.

(** The stand-in generator again: the [k]-th draw is [k/8]. *)
Record float_console : Type := { counter : Z; printed : list string }.

#[global] Instance float_world : World float float_console := {|
  gauss := fun w => (PrimFloat.mul (float_of_Z (counter w)) 0.125%float,
                     {| counter := counter w + 1; printed := printed w |});
  print := fun s w => {| counter := counter w; printed := printed w ++ [s] |}
|}.

(** The linear-drift scenario of the specification in doubles:
    [drift = -X], [diffusion = 0], [X0 = [1.0]], [dt = 0.01], [N = 100]. *)
Definition float_minus_x : value float -> float -> outcome (value float) :=
  fun y _ => bcast fsub (VScalar zero) y.

Definition float_no_diffusion
  : value float -> float -> outcome (value float) :=
  fun _ _ => Ok (VScalar zero).

Definition hundredth : float := 0x1.47ae147ae147bp-7%float.

Definition decay_scenario : outcome (retval float) * float_console :=
  solve_sde (Some (pure_cb float_minus_x))
            (Some (pure_cb float_no_diffusion))
            (Some [1%float]) hundredth 100 0%float None
            {| counter := -3; printed := [] |}.

(* ================================================================== *)
(** * Proofs *)

(* ------------------------------------------------------------------ *)
(** ** Lists *)

Lemma set_nth_length {A} (i : nat) (x : A) (l : list A) :
  length (set_nth i x l) = length l.
Proof.
  revert i; induction l as [|h t IH]; intros [|j]; simpl; auto.
Qed.

Lemma set_nth_same {A} (i : nat) (x : A) (l : list A) :
  i < length l -> nth_error (set_nth i x l) i = Some x.
Proof.
  revert i; induction l as [|h t IH]; intros [|j] Hi; simpl in *;
    try lia; auto.
  apply IH; lia.
Qed.

Lemma set_nth_other {A} (i j : nat) (x : A) (l : list A) :
  i <> j -> nth_error (set_nth i x l) j = nth_error l j.
Proof.
  revert i j; induction l as [|h t IH]; intros [|i] [|j] Hij; simpl;
    try congruence; auto.
Qed.

Lemma set_nth_map_length {A} (i : nat) (r old : list A) (Y : list (list A)) :
  nth_error Y i = Some old -> length r = length old ->
  map (@length A) (set_nth i r Y) = map (@length A) Y.
Proof.
  revert i; induction Y as [|h t IH]; intros [|j] Hn Hl; simpl in *;
    try discriminate.
  - injection Hn as ->. now rewrite Hl.
  - f_equal. now apply IH.
Qed.

Lemma nth_error_repeat {A} (x : A) (n i : nat) :
  i < n -> nth_error (repeat x n) i = Some x.
Proof.
  revert i; induction n as [|n IH]; intros [|i] Hi; simpl; try lia; auto.
  apply IH; lia.
Qed.

Lemma map2_length {A B C} (f : A -> B -> C) l1 l2 :
  length l1 = length l2 -> length (map2 f l1 l2) = length l1.
Proof.
  revert l2; induction l1 as [|a t IH]; intros [|b t2] Hl; simpl in *;
    try discriminate; auto.
Qed.

Lemma map2_nth_error {A B C} (f : A -> B -> C) l1 l2 i z :
  nth_error (map2 f l1 l2) i = Some z ->
  exists x y, nth_error l1 i = Some x /\ nth_error l2 i = Some y /\ z = f x y.
Proof.
  revert l2 i; induction l1 as [|a t IH]; intros [|b t2] [|i] Hn;
    simpl in *; try discriminate.
  - injection Hn as <-. eauto.
  - eauto.
Qed.

Lemma map2_nth_error_fwd {A B C} (f : A -> B -> C) l1 l2 i x y :
  nth_error l1 i = Some x -> nth_error l2 i = Some y ->
  nth_error (map2 f l1 l2) i = Some (f x y).
Proof.
  revert l2 i; induction l1 as [|a t IH]; intros [|b t2] [|i] Hx Hy;
    simpl in *; try discriminate.
  - now inversion Hx; inversion Hy.
  - auto.
Qed.

Lemma map_nth_error_inv {A B} (f : A -> B) l i z :
  nth_error (map f l) i = Some z ->
  exists x, nth_error l i = Some x /\ z = f x.
Proof.
  rewrite nth_error_map. destruct (nth_error l i); simpl; intros E;
    inversion E; eauto.
Qed.

(* ------------------------------------------------------------------ *)
(** ** Reasoning in the monad *)

Lemma bind_ok {W A B} (m : M W A) (k : A -> M W B) w b w' :
  bind m k w = (Ok b, w') ->
  exists a w1, m w = (Ok a, w1) /\ k a w1 = (Ok b, w').
Proof.
  unfold bind. destruct (m w) as [[a|e] w1]; intros E.
  - eauto.
  - discriminate.
Qed.

Lemma lift_ok {W A} (o : outcome A) (w w' : W) a :
  lift o w = (Ok a, w') -> o = Ok a /\ w' = w.
Proof. unfold lift. intros E. inversion E. auto. Qed.

Lemma ret_ok {W A} (x a : A) (w w' : W) :
  ret x w = (Ok a, w') -> a = x /\ w' = w.
Proof. unfold ret. intros E. inversion E. auto. Qed.

Lemma bind_lift_ok {W A B} (o : outcome A) (k : A -> M W B) a w :
  o = Ok a -> bind (lift o) k w = k a w.
Proof. intros ->. reflexivity. Qed.

Lemma bind_lift_Ok {W A B} (a : A) (k : A -> M W B) w :
  bind (lift (Ok a)) k w = k a w.
Proof. reflexivity. Qed.

Lemma bind_step {W A B} (m : M W A) (k : A -> M W B) w a w1 :
  m w = (Ok a, w1) -> bind m k w = k a w1.
Proof. unfold bind. intros ->. reflexivity. Qed.

Lemma bind_ext {W A B} (m1 m2 : M W A) (k1 k2 : A -> M W B) w :
  m1 w = m2 w -> (forall a w', k1 a w' = k2 a w') ->
  bind m1 k1 w = bind m2 k2 w.
Proof.
  intros Hm Hk. unfold bind. rewrite Hm.
  destruct (m2 w) as [[a|e] w']; auto.
Qed.

Lemma bind_raise {W A B} (m : M W A) (k : A -> M W B) w e w1 :
  m w = (Raise e, w1) -> bind m k w = (Raise e, w1).
Proof. unfold bind. intros ->. reflexivity. Qed.

(** Splits a successful run of a chain of binds into its stages. *)
Ltac monad_inv H :=
  repeat match type of H with
  | bind _ _ _ = (Ok _, _) =>
      let a := fresh "v" in let w := fresh "w" in
      let H1 := fresh "E" in
      apply bind_ok in H; destruct H as (a & w & H1 & H);
      try (apply lift_ok in H1; destruct H1 as [H1 ->])
  | lift _ _ = (Ok _, _) => apply lift_ok in H; destruct H as [H ->]
  | ret _ _ = (Ok _, _) => apply ret_ok in H; destruct H as [-> ->]
  end.

(** The same for every chain in the context, followed by cleaning up:
    equal computations get equal results. *)
Ltac monad_inv_all :=
  repeat match goal with
  | H : bind _ _ _ = (Ok _, _) |- _ =>
      let a := fresh "v" in let w := fresh "w" in
      let H1 := fresh "E" in
      apply bind_ok in H; destruct H as (a & w & H1 & H)
  | H : lift _ _ = (Ok _, _) |- _ =>
      let Hw := fresh "Hw" in
      apply lift_ok in H; destruct H as [H Hw]; try subst
  | H : ret _ _ = (Ok _, _) |- _ =>
      let Hw := fresh "Hw" in
      apply ret_ok in H; destruct H as [H Hw]; try subst
  end;
  repeat match goal with
  | H1 : ?t = Ok ?a, H2 : ?t = Ok ?b |- _ =>
      assert (a = b) by congruence; subst b; clear H2
  end.

(* ------------------------------------------------------------------ *)
(** ** Broadcasting, component by component *)

Section Broadcast.
Context {R : Type} `{Scalar R}.

Lemma comp_vec_nth (l : list R) i y :
  nth_error l i = Some y -> comp (VVec l) i = Some y.
Proof.
  destruct l as [|x [|x' l']]; simpl; auto.
  destruct i as [|i]; simpl; [auto | destruct i; discriminate].
Qed.

Lemma bcast_comp (f : R -> R -> R) (u v r : value R) i z :
  bcast f u v = Ok r -> comp r i = Some z ->
  exists x y, comp u i = Some x /\ comp v i = Some y /\ z = f x y.
Proof.
  destruct u as [x|l1], v as [y|l2]; simpl.
  - intros E; inversion E; subst; simpl. intros E'; inversion E'; eauto.
  - intros E; inversion E; subst; clear E.
    destruct l2 as [|y [|y' l2]]; simpl.
    + destruct i; discriminate.
    + intros E'; inversion E'; eauto.
    + intros E'. apply (map_nth_error_inv (f x) (y :: y' :: l2)) in E'.
      destruct E' as (b & Hb & ->). eauto.
  - intros E; inversion E; subst; clear E.
    destruct l1 as [|x [|x' l1]]; simpl.
    + destruct i; discriminate.
    + intros E'; inversion E'; eauto.
    + intros E'.
      apply (map_nth_error_inv (fun a => f a y) (x :: x' :: l1)) in E'.
      destruct E' as (b & Hb & ->). eauto.
  - destruct (Nat.eqb_spec (length l1) (length l2)) as [El|Nl].
    + intros E; inversion E; subst; clear E.
      destruct l1 as [|x [|x' l1]], l2 as [|y [|y' l2]];
        simpl in El; try discriminate; simpl.
      * destruct i; discriminate.
      * intros E'; inversion E'; eauto.
      * intros E'.
        apply (map2_nth_error f (x :: x' :: l1) (y :: y' :: l2)) in E'.
        destruct E' as (a & b & Ha & Hb & ->). eauto.
    + destruct l1 as [|x [|x' l1]], l2 as [|y [|y' l2]];
        simpl in Nl; try congruence; try discriminate;
        intros E; inversion E; subst; clear E; simpl;
        try (destruct i; discriminate).
      * intros E'.
        apply (map_nth_error_inv (f x) (y :: y' :: l2)) in E'.
        destruct E' as (b & Hb & ->). eauto.
      * intros E'.
        apply (map_nth_error_inv (fun a => f a y) (x :: x' :: l1)) in E'.
        destruct E' as (b & Hb & ->). eauto.
Qed.

Lemma comp_map (g : R -> R) (l : list R) i :
  comp (VVec (map g l)) i = option_map g (comp (VVec l) i).
Proof.
  destruct l as [|x [|x' l]]; simpl.
  - destruct i; reflexivity.
  - reflexivity.
  - apply (nth_error_map g i (x :: x' :: l)).
Qed.

Lemma comp_map2 (f : R -> R -> R) (l1 l2 : list R) i x y :
  length l1 = length l2 ->
  comp (VVec l1) i = Some x -> comp (VVec l2) i = Some y ->
  comp (VVec (map2 f l1 l2)) i = Some (f x y).
Proof.
  destruct l1 as [|a [|a' l1]], l2 as [|b [|b' l2]]; simpl;
    try discriminate.
  - destruct i; discriminate.
  - intros _ Hx Hy. now inversion Hx; inversion Hy.
  - intros _ Hx Hy.
    apply (map2_nth_error_fwd f (a :: a' :: l1) (b :: b' :: l2)); auto.
Qed.

(** ... and forwards: where both operands have a component, so has the
    result. *)
Lemma bcast_comp_fwd (f : R -> R -> R) (u v r : value R) i x y :
  bcast f u v = Ok r -> comp u i = Some x -> comp v i = Some y ->
  comp r i = Some (f x y).
Proof.
  destruct u as [a|l1], v as [b|l2]; cbn [bcast].
  - intros E Hx Hy; inversion E; inversion Hx; inversion Hy; subst; auto.
  - intros E Hx Hy; inversion E; inversion Hx; subst.
    rewrite comp_map, Hy. reflexivity.
  - intros E Hx Hy; inversion E; inversion Hy; subst.
    rewrite comp_map, Hx. reflexivity.
  - destruct (Nat.eqb_spec (length l1) (length l2)) as [El|Nl].
    + intros E Hx Hy; inversion E; subst. now apply comp_map2.
    + destruct l1 as [|a [|a' l1]].
      * intros _ Hx. destruct i; discriminate Hx.
      * intros E Hx Hy. injection E as <-. injection Hx as ->.
        rewrite comp_map, Hy. reflexivity.
      * destruct l2 as [|b [|b' l2]]; try discriminate.
        intros E Hx Hy. injection E as <-. injection Hy as ->.
        change (comp (VVec (map (fun a0 => f a0 y) (a :: a' :: l1))) i
                = Some (f x y)).
        rewrite comp_map, Hx. reflexivity.
Qed.

Lemma fit_length (d : nat) (v : value R) r :
  fit d v = Ok r -> length r = d.
Proof.
  destruct v as [x|l]; simpl.
  - intros E; inversion E. apply repeat_length.
  - destruct (Nat.eqb_spec (length l) d) as [El|Nl].
    + intros E; inversion E; subst; auto.
    + destruct l as [|x [|x' l]]; intros E; inversion E.
      apply repeat_length.
Qed.

Lemma fit_comp (d : nat) (v : value R) r i :
  fit d v = Ok r -> i < d ->
  exists z, nth_error r i = Some z /\ comp v i = Some z.
Proof.
  destruct v as [x|l]; cbn [fit].
  - intros E Hi; inversion E. exists x. split; auto.
    now apply nth_error_repeat.
  - destruct (Nat.eqb_spec (length l) d) as [El|Nl].
    + intros E Hi; inversion E; subst.
      destruct (nth_error r i) as [z|] eqn:Ez.
      * exists z. split; auto. now apply comp_vec_nth.
      * apply nth_error_None in Ez. lia.
    + destruct l as [|x [|x' l]]; intros E Hi; inversion E.
      exists x. split; auto. now apply nth_error_repeat.
Qed.

End Broadcast.

(* ------------------------------------------------------------------ *)
(** ** The loop *)

Section Loop.
Context {R W : Type} `{Scalar R} `{World R W}.

Lemma draws_length (n : nat) (w : W) : length (fst (draws n w)) = n.
Proof.
  revert w; induction n as [|n IH]; intros w; simpl; auto.
  destruct (gauss w) as [x w1]. specialize (IH w1).
  destruct (draws n w1) as [xs w2]. simpl in *. now rewrite IH.
Qed.

(** A loop whose turn [n] only writes row [n+1] leaves the rows up to its
    first index alone, keeps the shape, and relates every pair of
    consecutive rows it has gone through. *)
Lemma for_each_seq_inv
      (body : nat -> matrix R -> M W (matrix R))
      (P : nat -> list R -> list R -> Prop) :
  (forall n Y w Y' w', body n Y w = (Ok Y', w') ->
     exists yn old r,
       nth_error Y n = Some yn /\ nth_error Y (n + 1) = Some old /\
       length r = length old /\ Y' = set_nth (n + 1) r Y /\ P n yn r) ->
  forall m k Y w Y' w',
    for_each (seq k m) body Y w = (Ok Y', w') ->
    map (@length R) Y' = map (@length R) Y /\
    (forall j, j <= k -> nth_error Y' j = nth_error Y j) /\
    (forall n, k <= n < k + m ->
       exists yn yn1, nth_error Y' n = Some yn /\
                      nth_error Y' (n + 1) = Some yn1 /\ P n yn yn1).
Proof.
  intros Hbody. induction m as [|m IH]; intros k Y w Y' w' E; simpl in E.
  - monad_inv E. repeat split; auto. intros n Hn; lia.
  - monad_inv E. destruct (Hbody _ _ _ _ _ E0) as
        (yn & old & r & Hyn & Hold & Hlen & -> & HP).
    destruct (IH _ _ _ _ _ E) as (Hshape & Hlow & Hrel).
    assert (Hk1 : k + 1 < length Y).
    { apply nth_error_Some. congruence. }
    repeat split.
    + rewrite Hshape. eapply set_nth_map_length; eauto.
    + intros j Hj. rewrite Hlow by lia. apply set_nth_other. lia.
    + intros n Hn. destruct (Nat.eq_dec n k) as [->|Nk].
      * exists yn, r. repeat split; auto.
        -- rewrite Hlow by lia. rewrite set_nth_other by lia. auto.
        -- replace (k + 1) with (S k) by lia. rewrite Hlow by lia.
           replace (S k) with (k + 1) by lia. now apply set_nth_same.
      * apply Hrel. lia.
Qed.

End Loop.

(* ------------------------------------------------------------------ *)
(** ** One turn of the loop *)

(** Walks from a component of a result back to the components of the
    operands it was computed from. *)
Ltac comp_back :=
  repeat match goal with
  | Hc : comp (VScalar _) _ = Some ?y |- _ =>
      simpl in Hc; injection Hc as Hc; subst y
  | Hb : bcast ?f ?u ?v = Ok ?r, Hc : comp ?r ?i = Some ?z |- _ =>
      let x := fresh "x" in let y := fresh "y" in
      let Hx := fresh "Hx" in let Hy := fresh "Hy" in
      let Hz := fresh "Hz" in
      destruct (bcast_comp _ _ _ i Hb Hc) as (x & y & Hx & Hy & Hz);
      subst z; clear Hb
  end;
  repeat match goal with
  | H1 : comp ?v ?i = Some ?a, H2 : comp ?v ?i = Some ?b |- _ =>
      assert (a = b) by congruence; subst b; clear H2
  end.

Section Step.
Context {R W : Type} `{Scalar R} `{World R W}.
Variables alfa beta DW : @callback R W.
Variable ti : list R.
Variables dt Dn Wn : R.

Lemma step_inv n Y w Y' w' :
  step alfa beta DW ti dt Dn Wn n Y w = (Ok Y', w') ->
  exists yn old r,
    nth_error Y n = Some yn /\ nth_error Y (n + 1) = Some old /\
    length r = length old /\ Y' = set_nth (n + 1) r Y /\
    srk_rel alfa beta DW ti dt Dn Wn n yn r.
Proof.
  unfold step, rhs. intros E. monad_inv_all.
  unfold row in E2. destruct (nth_error Y n) as [yn|] eqn:Hyn;
    [|discriminate]. injection E2 as <-.
  unfold index in E1. destruct (nth_error ti n) as [t|] eqn:Ht;
    [|discriminate]. injection E1 as <-.
  unfold assign_row in E.
  destruct (nth_error Y (n + 1)) as [old|] eqn:Hold; [|discriminate].
  destruct (fit (length old) v) as [r|] eqn:Hfit; [|discriminate].
  injection E as <-.
  pose proof (fit_length _ _ Hfit) as Hlen.
  exists yn, old, r. repeat split; auto.
  do 11 eexists. repeat split; try eassumption.
  intros i yi Hyi Hi. rewrite Hlen in Hi.
  pose proof Hfit as Hc. eapply fit_comp in Hc; [|exact Hi].
  destruct Hc as (z & Hz & Hc).
  pose proof Hyi as Hcy. apply comp_vec_nth in Hcy.
  pose proof E17 as Ebsq. pose proof E18 as Esupp.
  clear E17 E18.
  comp_back.
  do 4 eexists. repeat split; try eassumption.
  eapply bcast_comp_fwd; [exact Esupp | eassumption |].
  eapply bcast_comp_fwd; [exact Ebsq | eassumption | reflexivity].
Qed.

End Step.

(* ------------------------------------------------------------------ *)
(** ** A whole call *)

Section Call.
Context {R W : Type} `{Scalar R} `{World R W}.

Lemma time_grid_length (N : Z) (dt t0 : R) :
  length (time_grid N dt t0) = Z.to_nat N.
Proof. unfold time_grid. now rewrite length_map, length_seq. Qed.

Lemma time_grid_nth (N : Z) (dt t0 : R) (n : nat) :
  n < Z.to_nat N ->
  nth_error (time_grid N dt t0) n
  = Some (fadd (fmul (of_int (Z.of_nat n)) dt) t0).
Proof.
  intros Hn. unfold time_grid.
  rewrite nth_error_map, nth_error_seq.
  destruct (Nat.ltb_spec n (Z.to_nat N)); [reflexivity | lia].
Qed.

Lemma initial_rows (x0 : list R) (k : nat) :
  0 < k ->
  assign_row 0 (VVec x0) (repeat (repeat zero (length x0)) k)
  = Ok (x0 :: repeat (repeat zero (length x0)) (k - 1)).
Proof.
  destruct k as [|k]; [lia|]. intros _. unfold assign_row. simpl.
  rewrite repeat_length, Nat.eqb_refl. now rewrite Nat.sub_0_r.
Qed.

Lemma initial_rows_shape (x0 : list R) (k : nat) :
  map (@length R) (x0 :: repeat (repeat zero (length x0)) k)
  = repeat (length x0) (S k).
Proof.
  simpl. f_equal. induction k as [|k IH]; simpl; auto.
  now rewrite repeat_length, IH.
Qed.

(** A call that returns a pair went through all of [solve_sde]. *)
Lemma solve_sde_inv (alfa beta : @callback R W) X0 dt N t0 DW w r w' :
  solve_sde (Some alfa) (Some beta) X0 dt N t0 DW w = (Ok r, w') ->
  exists x0 w0 Y,
    initial_state alfa X0 w = (Ok x0, w0) /\
    (0 < N)%Z /\
    r = RetPair (time_grid N dt t0) Y /\
    map (@length R) Y = repeat (length x0) (Z.to_nat N) /\
    nth_error Y 0 = Some x0 /\
    forall n, n + 1 < Z.to_nat N ->
      exists yn yn1,
        nth_error Y n = Some yn /\ nth_error Y (n + 1) = Some yn1 /\
        srk_rel alfa beta (wiener_of DW x0) (time_grid N dt t0)
                dt dt one n yn yn1.
Proof.
  unfold solve_sde. intros E. monad_inv_all.
  match goal with
  | Hi : initial_state _ _ _ = (Ok ?x0, ?w0),
    Hz : np_zeros _ _ = Ok ?Y0,
    Ha : assign_row 0 _ ?Y0 = Ok ?Y1,
    Hf : for_each _ _ ?Y1 _ = (Ok ?Y, _) |- _ =>
      rename x0 into x, w0 into wi, Y0 into Yz, Y1 into Yi, Y into Yf;
      rename Hi into Einit, Hz into Ezeros, Ha into Eassign, Hf into Eloop
  end.
  unfold np_zeros in Ezeros.
  destruct (Z.ltb_spec N 0) as [|HN]; [discriminate|].
  injection Ezeros as <-.
  assert (HN' : (0 < N)%Z).
  { destruct (Z.eq_dec N 0) as [->|]; [|lia].
    simpl in Eassign. discriminate. }
  rewrite initial_rows in Eassign by lia. injection Eassign as <-.
  unfold range in Eloop.
  destruct (for_each_seq_inv _
              (srk_rel alfa beta (wiener_of DW x) (time_grid N dt t0)
                       dt dt one)
              (step_inv alfa beta (wiener_of DW x) (time_grid N dt t0)
                        dt dt one) _ _ _ _ Eloop)
    as (Hshape & Hlow & Hrel).
  exists x, wi, Yf.
  split; [exact Einit|]. split; [exact HN'|]. split; [reflexivity|].
  split; [|split].
  - rewrite Hshape, initial_rows_shape. f_equal. lia.
  - rewrite Hlow by lia. reflexivity.
  - intros n Hn. apply Hrel. lia.
Qed.

End Call.

(* ------------------------------------------------------------------ *)
(** ** Calls that return *)

Section Totality.
Context {R W : Type} `{Scalar R} `{World R W}.
Variable d : nat.

Lemma shaped_bcast (f : R -> R -> R) (u v : value R) :
  shaped d u -> shaped d v -> exists r, bcast f u v = Ok r /\ shaped d r.
Proof.
  destruct u as [x|l1], v as [y|l2]; simpl; intros Hu Hv.
  - eexists; split; [reflexivity | exact I].
  - eexists; split; [reflexivity|]. simpl. now rewrite length_map.
  - eexists; split; [reflexivity|]. simpl. now rewrite length_map.
  - rewrite Hu, Hv, Nat.eqb_refl.
    eexists; split; [reflexivity|]. simpl.
    rewrite map2_length; congruence.
Qed.

Lemma shaped_fit (v : value R) : shaped d v -> exists r, fit d v = Ok r.
Proof.
  destruct v as [x|l]; simpl; intros Hv.
  - eexists; reflexivity.
  - rewrite Hv, Nat.eqb_refl. eexists; reflexivity.
Qed.

(** A row combined with a value of the state's shape is a row again. *)
Lemma vec_bcast (f : R -> R -> R) (l : list R) (v : value R) :
  length l = d -> shaped d v ->
  exists l', bcast f (VVec l) v = Ok (VVec l') /\ length l' = d.
Proof.
  destruct v as [y|l2]; simpl; intros Hl Hv.
  - eexists; split; [reflexivity|]. now rewrite length_map.
  - rewrite Hl, Hv, Nat.eqb_refl.
    eexists; split; [reflexivity|]. rewrite map2_length; congruence.
Qed.


Variables alfa beta DW : @callback R W.
Variable ti : list R.
Variables dt Dn Wn : R.
Hypothesis alfa_regular : regular_on d alfa.
Hypothesis beta_regular : regular_on d beta.
Hypothesis DW_regular : regular_on d DW.

Ltac ufunc f Su Sv r S :=
  let E := fresh "E" in
  destruct (@shaped_bcast f _ _ Su Sv) as (r & E & S);
  rewrite ?bind_lift_Ok, E, ?bind_lift_Ok.

Ltac vfunc f Hl Sv l' Hl' :=
  let E := fresh "E" in
  destruct (@vec_bcast f _ _ Hl Sv) as (l' & E & Hl');
  rewrite ?bind_lift_Ok, E, ?bind_lift_Ok.

Ltac call Hcb l t w Hl v w' S :=
  let E := fresh "E" in
  destruct (Hcb l t w Hl) as (v & w' & E & S);
  erewrite bind_step by exact E; rewrite ?bind_lift_Ok.

Lemma rhs_returns n Y w t yn :
  nth_error ti n = Some t -> nth_error Y n = Some yn -> length yn = d ->
  exists v w', rhs alfa beta DW ti dt Dn Wn n Y w = (Ok v, w')
               /\ shaped d v.
Proof.
  intros Ht Hyn Hlen. unfold rhs, index, row. rewrite Ht, Hyn.
  assert (Sy : shaped d (VVec yn)) by exact Hlen.
  assert (Sc : forall c : R, shaped d (VScalar c)) by (intros; exact I).
  rewrite !bind_lift_Ok.
  call alfa_regular yn t w Hlen a w1 Sa.
  call beta_regular yn t w1 Hlen b w2 Sb.
  call DW_regular yn dt w2 Hlen dW w3 SdW.
  ufunc fmul Sa (Sc Dn) aDn SaDn.
  ufunc fadd Sy SaDn s1 Ss1.
  ufunc fmul Sb SdW bDW SbDW.
  ufunc fmul SbDW (Sc Wn) bDWW SbDWW.
  ufunc fadd Ss1 SbDWW s2 Ss2.
  vfunc fadd Hlen SaDn p1 Hp1.
  ufunc fmul Sb (Sc (fsqrt Dn)) bsq Sbsq.
  vfunc fadd Hp1 Sbsq supp Hsupp.
  call beta_regular supp t w3 Hsupp bs w4 Sbs.
  ufunc fsub Sbs Sb df Sdf.
  ufunc fmul (Sc half) Sdf h Sh.
  ufunc fpow SdW (Sc two) sq Ssq.
  ufunc fsub Ssq (Sc Dn) q Sq.
  ufunc fmul Sh Sq hq Shq.
  ufunc fdiv Shq (Sc (fsqrt Dn)) c Scc.
  destruct (@shaped_bcast fadd _ _ Ss2 Scc) as (r & Efin & S').
  exists r. eexists. unfold lift. rewrite Efin.
  split; [reflexivity|exact S'].
Qed.

Lemma step_returns n Y w t yn old :
  nth_error ti n = Some t -> nth_error Y n = Some yn -> length yn = d ->
  nth_error Y (n + 1) = Some old -> length old = d ->
  exists Y' w', step alfa beta DW ti dt Dn Wn n Y w = (Ok Y', w').
Proof.
  intros Ht Hyn Hlen Hold Hlo.
  destruct (rhs_returns n Y w Ht Hyn Hlen) as (v & w' & E & Sv).
  unfold step. erewrite bind_step by exact E.
  unfold lift, assign_row. rewrite Hold, Hlo.
  destruct (@shaped_fit v Sv) as (r & ->). eexists; eexists; reflexivity.
Qed.

Lemma loop_returns K m : forall k Y w,
  map (@length R) Y = repeat d K -> k + m < K -> k + m <= length ti ->
  exists Y' w',
    for_each (seq k m) (step alfa beta DW ti dt Dn Wn) Y w = (Ok Y', w').
Proof.
  induction m as [|m IH]; intros k Y w Hshape HK Hti; simpl.
  - eexists; eexists; reflexivity.
  - assert (Hrow : forall j, j < K ->
               exists yj, nth_error Y j = Some yj /\ length yj = d).
    { intros j Hj. destruct (nth_error Y j) as [yj|] eqn:Hyj.
      - exists yj. split; [reflexivity|].
        apply (map_nth_error (@length R)) in Hyj. rewrite Hshape in Hyj.
        apply nth_error_In in Hyj. now apply repeat_spec in Hyj.
      - apply nth_error_None in Hyj.
        rewrite <- (length_map (@length R)), Hshape, repeat_length in Hyj.
        lia. }
    destruct (Hrow k) as (yn & Hyn & Hlen); [lia|].
    destruct (Hrow (k + 1)) as (old & Hold & Hlo); [lia|].
    destruct (nth_error ti k) as [t|] eqn:Ht;
      [|apply nth_error_None in Ht; lia].
    destruct (step_returns k Y w Ht Hyn Hlen Hold Hlo) as (Y1 & w1 & E).
    erewrite bind_step by exact E.
    apply IH; try lia.
    destruct (step_inv _ _ _ _ _ _ _ _ _ _ E)
      as (yn' & old' & r & _ & Hold' & Hr & -> & _).
    rewrite <- Hshape. eapply set_nth_map_length; eauto.
Qed.

End Totality.

Section Returns.
Context {R W : Type} `{Scalar R} `{World R W}.

(** A call with a positive step count, a given initial state and callbacks
    that return values of the state's shape on states of that shape
    returns a pair. *)
Lemma solve_sde_returns_on (alfa beta : @callback R W) x0 dt N t0 DW w :
  (0 < N)%Z ->
  regular_on (length x0) alfa -> regular_on (length x0) beta ->
  regular_on (length x0) (wiener_of DW x0) ->
  exists Y w',
    solve_sde (Some alfa) (Some beta) (Some x0) dt N t0 DW w
    = (Ok (RetPair (time_grid N dt t0) Y), w').
Proof.
  intros HN Ha Hb Hw. unfold solve_sde, initial_state.
  change (bind (ret x0) ?k w) with (k x0 w). cbv beta.
  unfold np_zeros. destruct (Z.ltb_spec N 0) as [|_]; [lia|].
  rewrite bind_lift_Ok, initial_rows, bind_lift_Ok by lia.
  destruct (@loop_returns R W _ (length x0) alfa beta (wiener_of DW x0)
              (time_grid N dt t0) dt dt one Ha Hb Hw
              (Z.to_nat N) (Z.to_nat (N - 1)) 0
              (x0 :: repeat (repeat zero (length x0)) (Z.to_nat N - 1)) w)
    as (Y & w' & E).
  - rewrite initial_rows_shape. f_equal. lia.
  - lia.
  - rewrite time_grid_length. lia.
  - exists Y, w'. unfold range. erewrite bind_step by exact E. reflexivity.
Qed.


End Returns.

(* ------------------------------------------------------------------ *)
(** ** The properties of a call *)

Section Properties.
Context {R W : Type} `{Scalar R} `{World R W}.

(** C1.  In a call that returns [(ti, Y)], every step [n] from 0 to N-2
    computes row [n+1] from row [n] by the Runge-Kutta update: with
    [a = alfa(Y_n, t_n)], [b = beta(Y_n, t_n)], [dW = DW(Y_n, dt)] and
    [b_support = beta(Y_n + a*dt + b*sqrt(dt), t_n)], component by
    component (a scalar or length-1 result being stretched),
    [Y_{n+1} = Y_n + a*dt + b*dW + 0.5*(b_support - b)*(dW^2 - dt)/sqrt(dt)].
    The source multiplies [b*dW] by the constant [Wn = 1]; the statement
    assumes that multiplying by 1 changes nothing. *)
Theorem srk_update_formula
        (alfa beta : @callback R W) X0 dt N t0 DW w ti Y w' :
  (forall x : R, fmul x one = x) ->
  solve_sde (Some alfa) (Some beta) X0 dt N t0 DW w
  = (Ok (RetPair ti Y), w') ->
  forall n : nat, (Z.of_nat n <= N - 2)%Z ->
    exists x0 yn yn1 tn a b dW supp bs w0 w1 w2 w3 w4,
      nth_error Y 0 = Some x0 /\
      nth_error Y n = Some yn /\
      nth_error Y (n + 1) = Some yn1 /\
      nth_error ti n = Some tn /\
      alfa (VVec yn) tn w0 = (Ok a, w1) /\
      beta (VVec yn) tn w1 = (Ok b, w2) /\
      wiener_of DW x0 (VVec yn) dt w2 = (Ok dW, w3) /\
      beta supp tn w3 = (Ok bs, w4) /\
      length yn1 = length yn /\
      forall i yi, nth_error yn i = Some yi ->
        exists ai bi dWi bsi,
          comp a i = Some ai /\ comp b i = Some bi /\
          comp dW i = Some dWi /\ comp bs i = Some bsi /\
          comp supp i = Some (spec_support yi ai bi dt) /\
          nth_error yn1 i = Some (spec_update yi ai bi dWi bsi dt).
Proof.
  intros Hone E n Hn.
  destruct (solve_sde_inv _ _ _ _ _ _ _ _ E)
    as (x0 & wi & Y1 & _ & HN & Er & Hshape & Hrow0 & Hsteps).
  injection Er as -> ->.
  destruct (Hsteps n) as (yn & yn1 & Hyn & Hyn1 & Hrel); [lia|].
  destruct Hrel as (tn & a & b & dW & supp & bs & w0 & w1 & w2 & w3 & w4
                    & Ht & Ea & Eb & Ew & Es & Hcomp).
  assert (Hlen : length yn1 = length yn).
  { pose proof (map_nth_error (@length R) _ _ Hyn) as L1.
    pose proof (map_nth_error (@length R) _ _ Hyn1) as L2.
    rewrite Hshape in L1, L2.
    apply nth_error_In, repeat_spec in L1.
    apply nth_error_In, repeat_spec in L2. congruence. }
  exists x0, yn, yn1, tn, a, b, dW, supp, bs, w0, w1, w2, w3, w4.
  do 9 (split; [assumption|]).
  intros i yi Hyi.
  assert (Hi : i < length yn1).
  { rewrite Hlen. apply nth_error_Some. congruence. }
  destruct (Hcomp i yi Hyi Hi)
    as (ai & bi & dWi & bsi & Hai & Hbi & Hwi & Hsi & Hsupp & Hnew).
  exists ai, bi, dWi, bsi. rewrite Hone in Hnew.
  do 4 (split; [assumption|]). split; assumption.
Qed.



(** C4.  With the drift absent or the diffusion absent the call ends
    without an exception, hands the caller [None] (no trajectory, not
    even a partial one), and its only effect is the printed message;
    nothing of the integration runs, whatever the other arguments are. *)
Theorem missing_function_reported
        (alfa beta : option (@callback R W)) X0 dt N t0 DW w :
  alfa = None \/ beta = None ->
  solve_sde alfa beta X0 dt N t0 DW w
  = (Ok RetNone, print error_message w).
Proof.
  intros [-> | ->]; [|destruct alfa]; reflexivity.
Qed.

(** C9.  For [N = 1], with drift and diffusion present and [X0] given, the
    call returns the time grid [[t0]] and the trajectory [[X0]], and the
    world is left as it was: whatever the three callbacks would do (raise,
    draw random numbers, print), none of it happens.  The first grid
    point is computed as [0*dt + t0]; the statement assumes it is [t0]. *)
Theorem single_step_count
        (alfa beta : @callback R W) x0 dt t0 DW w :
  fmul zero dt = zero ->
  fadd zero t0 = t0 ->
  solve_sde (Some alfa) (Some beta) (Some x0) dt 1 t0 DW w
  = (Ok (RetPair [t0] [x0]), w).
Proof.
  intros Hmul Hadd.
  cbv [solve_sde initial_state bind ret lift np_zeros].
  change (1 <? 0)%Z with false. cbv iota.
  change (Z.to_nat 1) with 1.
  rewrite initial_rows by lia.
  cbv [range time_grid]. simpl.
  fold (@zero R _). now rewrite Hmul, Hadd.
Qed.

(** C10.  With the drift absent or the diffusion absent the value handed
    back is [None], not a pair, and no exception is raised by the call
    itself: the error shows only as the printed message.  A caller that
    unpacks the result into two values, [t, Y = solve_sde(...)], fails
    with a TypeError. *)
Theorem missing_function_returns_none
        (alfa beta : option (@callback R W)) X0 dt N t0 DW w :
  alfa = None \/ beta = None ->
  fst (solve_sde alfa beta X0 dt N t0 DW w) = Ok RetNone /\
  (forall ti Y,
      fst (solve_sde alfa beta X0 dt N t0 DW w) <> Ok (RetPair ti Y)) /\
  (forall e, fst (solve_sde alfa beta X0 dt N t0 DW w) <> Raise e) /\
  snd (solve_sde alfa beta X0 dt N t0 DW w) = print error_message w /\
  (r <- solve_sde alfa beta X0 dt N t0 DW ;; lift (unpack2 r)) w
  = (Raise TypeError, print error_message w).
Proof.
  intros Hnone.
  assert (E : solve_sde alfa beta X0 dt N t0 DW w
              = (Ok RetNone, print error_message w)).
  { destruct Hnone as [-> | ->]; [|destruct alfa]; reflexivity. }
  unfold bind. rewrite E. simpl.
  repeat split; try reflexivity; intros; discriminate.
Qed.

End Properties.

(* ------------------------------------------------------------------ *)
(** ** Defaults and determinism *)

Section Defaults.
Context {R W : Type} `{Scalar R} `{World R W}.

Lemma default_wiener_scaled (x0 : list R) y dt w :
  default_wiener x0 y dt w = scaled_normal (length x0) y dt w.
Proof.
  unfold default_wiener, scaled_normal, bind, randn, lift.
  destruct (draws (length x0) w) as [z w1]. reflexivity.
Qed.

Lemma stateless_lift {A} (o : outcome A) : stateless (lift o : M W A).
Proof. exists o. reflexivity. Qed.

Lemma stateless_ret {A} (a : A) : stateless (ret a : M W A).
Proof. exists (Ok a). reflexivity. Qed.

Lemma stateless_bind {A B} (m : M W A) (k : A -> M W B) :
  stateless m -> (forall a, stateless (k a)) -> stateless (bind m k).
Proof.
  intros [[a|e] Hm] Hk.
  - destruct (Hk a) as [o Ho]. exists o. intros w.
    unfold bind. now rewrite Hm, Ho.
  - exists (Raise e). intros w. unfold bind. now rewrite Hm.
Qed.

Lemma stateless_for_each ns (body : nat -> matrix R -> M W (matrix R)) :
  (forall n Y, stateless (body n Y)) ->
  forall Y, stateless (for_each ns body Y).
Proof.
  intros Hb. induction ns as [|n ns IH]; intros Y; simpl.
  - apply stateless_ret.
  - apply stateless_bind; auto.
Qed.

Lemma stateless_step fa fb fw ti dt Dn Wn n Y :
  stateless (W := W) (step (pure_cb fa) (pure_cb fb) (pure_cb fw) ti dt Dn Wn n Y).
Proof.
  unfold step, rhs, pure_cb.
  repeat first [ apply stateless_lift
               | apply stateless_bind; [|intros] ].
Qed.

Lemma stateless_solve fa fb fw x0 dt N t0 :
  stateless (W := W) (solve_sde (Some (pure_cb fa)) (Some (pure_cb fb)) (Some x0)
                       dt N t0 (Some (pure_cb fw))).
Proof.
  unfold solve_sde, initial_state, wiener_of.
  apply stateless_bind; [apply stateless_ret | intros].
  apply stateless_bind; [apply stateless_lift | intros].
  apply stateless_bind; [apply stateless_lift | intros].
  apply stateless_bind; [|intros; apply stateless_ret].
  apply stateless_for_each. intros. apply stateless_step.
Qed.

(** C6, as amended.  With the initial state given and drift, diffusion and
    wiener source functions of their arguments alone, the result of a call
    does not depend on the state of the random generator (nor on anything
    else in the world) and the call leaves the world as it was: two calls
    with identical inputs return identical time grids and trajectories. *)
Theorem deterministic_with_given_x0 fa fb fw x0 dt N t0 (w1 w2 : W) :
  fst (solve_sde (Some (pure_cb fa)) (Some (pure_cb fb)) (Some x0)
                 dt N t0 (Some (pure_cb fw)) w1)
  = fst (solve_sde (Some (pure_cb fa)) (Some (pure_cb fb)) (Some x0)
                   dt N t0 (Some (pure_cb fw)) w2)
  /\ snd (solve_sde (Some (pure_cb fa)) (Some (pure_cb fb)) (Some x0)
                    dt N t0 (Some (pure_cb fw)) w1) = w1.
Proof.
  destruct (stateless_solve fa fb fw x0 dt N t0) as [o Ho].
  rewrite (Ho w1), (Ho w2). split; reflexivity.
Qed.



Lemma for_each_ext ns (body1 body2 : nat -> matrix R -> M W (matrix R)) :
  (forall n Y w, body1 n Y w = body2 n Y w) ->
  forall Y w, for_each ns body1 Y w = for_each ns body2 Y w.
Proof.
  intros Hext. induction ns as [|n ns IH]; intros Y w; simpl.
  - reflexivity.
  - apply bind_ext; auto.
Qed.


End Defaults.

(* ------------------------------------------------------------------ *)
(** ** Zero diffusion: the explicit Euler method *)

Section ZeroDiffusion.
Context {R W : Type} `{Scalar R} `{World R W}.

Hypothesis mul_zero_l : forall x : R, fmul zero x = zero.
Hypothesis add_zero_r : forall x : R, fadd x zero = x.
Hypothesis sub_zero_zero : fsub (zero : R) zero = zero.
Hypothesis half_zero : fmul half (zero : R) = zero.

Lemma map2_zero_l (f : R -> R -> R) (d : nat) (l : list R) :
  (forall x, f zero x = zero) -> length l = d ->
  map2 f (repeat zero d) l = repeat zero d.
Proof.
  intros Hf. revert l; induction d as [|d IH]; intros [|x l] Hl;
    simpl in *; try discriminate; auto.
  rewrite Hf, IH by lia. reflexivity.
Qed.

Lemma map2_zero_r (d : nat) (l : list R) :
  length l = d -> map2 fadd l (repeat zero d) = l.
Proof.
  revert l; induction d as [|d IH]; intros [|x l] Hl;
    simpl in *; try discriminate; auto.
  rewrite add_zero_r, IH by lia. reflexivity.
Qed.

Lemma map_const_zero (f : R -> R) (l : list R) :
  (forall x, f x = zero) -> map f l = repeat zero (length l).
Proof.
  intros Hf. induction l as [|x l IH]; simpl; auto.
  now rewrite Hf, IH.
Qed.

Lemma map_zero (f : R -> R) (d : nat) :
  f zero = zero -> map f (repeat (zero : R) d) = repeat zero d.
Proof.
  intros Hf. induction d as [|d IH]; simpl; auto. now rewrite Hf, IH.
Qed.

Lemma map_add_zero (l : list R) : map (fun a => fadd a zero) l = l.
Proof.
  induction l as [|x l IH]; simpl; auto. now rewrite add_zero_r, IH.
Qed.

(** zero * anything of the state's shape = zero *)
Lemma zero_mul (d : nat) (z v : value R) :
  zero_value d z -> shaped d v ->
  exists z', bcast fmul z v = Ok z' /\ zero_value d z'.
Proof.
  intros [-> | ->] Hv; destruct v as [x|l]; simpl in *.
  - exists (VScalar zero). rewrite mul_zero_l. split; [auto | now left].
  - exists (VVec (repeat zero d)). split; [|now right].
    rewrite (map_const_zero (fmul zero) l mul_zero_l). now rewrite Hv.
  - exists (VVec (repeat zero d)). split; [|now right].
    now rewrite (map_zero (fun a => fmul a x) d (mul_zero_l x)).
  - exists (VVec (repeat zero d)). split; [|now right].
    rewrite repeat_length, Hv, Nat.eqb_refl.
    now rewrite (map2_zero_l fmul l mul_zero_l Hv).
Qed.

Lemma zero_sub (d : nat) (z1 z2 : value R) :
  zero_value d z1 -> zero_value d z2 ->
  exists z', bcast fsub z1 z2 = Ok z' /\ zero_value d z'.
Proof.
  intros [-> | ->] [-> | ->]; simpl.
  - exists (VScalar zero). rewrite sub_zero_zero. split; [auto | now left].
  - exists (VVec (repeat zero d)). split; [|now right].
    now rewrite (map_zero (fsub zero) d sub_zero_zero).
  - exists (VVec (repeat zero d)). split; [|now right].
    now rewrite (map_zero (fun a => fsub a zero) d sub_zero_zero).
  - exists (VVec (repeat zero d)). split; [|now right].
    rewrite Nat.eqb_refl. f_equal. f_equal.
    induction d as [|d IH]; simpl; auto. now rewrite sub_zero_zero, IH.
Qed.

Lemma zero_half (d : nat) (z : value R) :
  zero_value d z ->
  exists z', bcast fmul (VScalar half) z = Ok z' /\ zero_value d z'.
Proof.
  intros [-> | ->]; simpl.
  - exists (VScalar zero). rewrite half_zero. split; [auto | now left].
  - exists (VVec (repeat zero d)). split; [|now right].
    now rewrite (map_zero (fmul half) d half_zero).
Qed.

Lemma zero_div (d : nat) (z : value R) (s : R) :
  fdiv zero s = zero -> zero_value d z ->
  exists z', bcast fdiv z (VScalar s) = Ok z' /\ zero_value d z'.
Proof.
  intros Hs [-> | ->]; simpl.
  - exists (VScalar zero). rewrite Hs. split; [auto | now left].
  - exists (VVec (repeat zero d)). split; [|now right].
    now rewrite (map_zero (fun a => fdiv a s) d Hs).
Qed.

Lemma shaped_scalar_op (f : R -> R -> R) (d : nat) (v : value R) (c : R) :
  shaped d v -> exists v', bcast f v (VScalar c) = Ok v' /\ shaped d v'.
Proof.
  destruct v as [x|l]; simpl; intros Hv; eexists;
    (split; [reflexivity|]); simpl.
  - exact I.
  - now rewrite length_map.
Qed.


(** vector + zero = vector *)
Lemma plus_zero (d : nat) (l : list R) (z : value R) :
  length l = d \/ d = 1 -> zero_value d z ->
  bcast fadd (VVec l) z = Ok (VVec l).
Proof.
  intros Hl [-> | ->]; simpl.
  - now rewrite map_add_zero.
  - rewrite repeat_length.
    destruct (Nat.eqb_spec (length l) d) as [El|Nl].
    + now rewrite map2_zero_r.
    + destruct Hl as [Hl | Hl]; [contradiction | subst d]. simpl.
      destruct l as [|x [|x' l]]; simpl in *; try congruence.
      now rewrite !add_zero_r, map_add_zero.
Qed.


Variables fa fb : value R -> R -> outcome (value R).
Variable DWe : @callback R W.
Variable dt : R.
Variable d : nat.

Hypothesis div_zero_sqrt : fdiv zero (fsqrt dt) = zero.
Hypothesis fb_zero : forall y t, exists z, fb y t = Ok z /\ zero_value d z.
Hypothesis DW_shaped :
  forall y w, exists v w', DWe y dt w = (Ok v, w') /\ shaped d v.




End ZeroDiffusion.

Section ZeroDiffusionCall.
Context {R W : Type} `{Scalar R} `{World R W}.


Lemma default_wiener_shaped (x0 : list R) y dt (w : W) :
  exists v w', default_wiener x0 y dt w = (Ok v, w')
               /\ shaped (length x0) v.
Proof.
  rewrite default_wiener_scaled. unfold scaled_normal.
  pose proof (draws_length (length x0) w) as Hl.
  destruct (draws (length x0) w) as [z w1]. simpl in Hl.
  eexists; eexists; split; [reflexivity|].
  simpl. now rewrite length_map.
Qed.




End ZeroDiffusionCall.

(* ------------------------------------------------------------------ *)
(** ** The shape of a result and the step count *)

Section Shape.
Context {R W : Type} `{Scalar R} `{World R W}.

Lemma initial_state_length (alfa : @callback R W) X0 w x0 w1 :
  initial_state alfa X0 w = (Ok x0, w1) ->
  length x0 = match X0 with Some x => length x | None => 1 end.
Proof.
  destruct X0 as [x|]; simpl; intros E.
  - now inversion E.
  - monad_inv_all.
    match goal with
    | Hr : randn (shape_or_1 ?v) _ = _ |- _ =>
        destruct v; simpl in Hr; [|discriminate];
        destruct (gauss _) in Hr; inversion Hr; reflexivity
    end.
Qed.

(** X1.  A returned trajectory is a rectangle: it has one row for every
    point of the time grid, and every row has as many entries as the
    initial state, that is [len(X0)] when [X0] is given and 1 when it is
    synthesized. *)
Theorem trajectory_is_rectangular
        (alfa beta : @callback R W) X0 dt N t0 DW w ti Y w' :
  solve_sde (Some alfa) (Some beta) X0 dt N t0 DW w
  = (Ok (RetPair ti Y), w') ->
  length Y = length ti /\
  forall r, In r Y ->
    length r = match X0 with Some x => length x | None => 1 end.
Proof.
  intros E.
  destruct (solve_sde_inv _ _ _ _ _ _ _ _ E)
    as (x0 & wi & Y1 & Ei & HN & Er & Hshape & _).
  injection Er as -> ->. split.
  - rewrite time_grid_length, <- (length_map (@length R) Y1), Hshape.
    apply repeat_length.
  - intros r Hr. rewrite <- (initial_state_length _ _ _ Ei).
    apply (in_map (@length R)) in Hr. rewrite Hshape in Hr.
    now apply repeat_spec in Hr.
Qed.

(** X2.  A step count that is not positive is an error, found once the
    initial state is there and before any step is taken: a negative [N]
    makes [np.zeros] raise a ValueError, [N = 0] makes the assignment of
    row 0 raise an IndexError.  With [X0] given no callback has been
    called and the world is as it was. *)
Theorem nonpositive_step_count
        (alfa beta : @callback R W) X0 dt N t0 DW w x0 w1 :
  (N <= 0)%Z ->
  initial_state alfa X0 w = (Ok x0, w1) ->
  solve_sde (Some alfa) (Some beta) X0 dt N t0 DW w
  = (Raise (if (N <? 0)%Z then ValueError else IndexError), w1).
Proof.
  intros HN Ei. unfold solve_sde. erewrite bind_step by exact Ei.
  unfold np_zeros. destruct (Z.ltb_spec N 0) as [Hneg|Hpos].
  - reflexivity.
  - assert (N = 0%Z) as -> by lia. reflexivity.
Qed.

End Shape.

(* ------------------------------------------------------------------ *)
(** ** Diffusion that does not depend on the state *)

Section AdditiveNoise.
Context {R W : Type} `{Scalar R} `{World R W}.

(** X3.  With a diffusion that is a function of the time alone the
    correction term of the scheme vanishes and every step is the
    Euler-Maruyama step [Y_{n+1} = Y_n + a*dt + b*dW], component by
    component.  The arithmetic is taken exact: [x - x = 0], [0.5*0 = 0],
    [0*x = 0], [0/sqrt(dt) = 0], [x + 0 = x] and [x*1 = x]. *)
Theorem additive_noise_is_euler_maruyama
        (alfa : @callback R W) (g : R -> value R)
        X0 dt N t0 DW w ti Y w' :
  (forall x : R, fsub x x = zero) ->
  fmul half (zero : R) = zero ->
  (forall x : R, fmul zero x = zero) ->
  fdiv zero (fsqrt dt) = zero ->
  (forall x : R, fadd x zero = x) ->
  (forall x : R, fmul x one = x) ->
  solve_sde (Some alfa) (Some (pure_cb (fun _ t => Ok (g t))))
            X0 dt N t0 DW w
  = (Ok (RetPair ti Y), w') ->
  forall n : nat, (Z.of_nat n <= N - 2)%Z ->
    exists x0 yn yn1 tn a dW w0 w1 w2,
      nth_error Y 0 = Some x0 /\
      nth_error Y n = Some yn /\
      nth_error Y (n + 1) = Some yn1 /\
      nth_error ti n = Some tn /\
      alfa (VVec yn) tn w0 = (Ok a, w1) /\
      wiener_of DW x0 (VVec yn) dt w1 = (Ok dW, w2) /\
      length yn1 = length yn /\
      forall i yi, nth_error yn i = Some yi ->
        exists ai bi dWi,
          comp a i = Some ai /\ comp (g tn) i = Some bi /\
          comp dW i = Some dWi /\
          nth_error yn1 i
          = Some (fadd (fadd yi (fmul ai dt)) (fmul bi dWi)).
Proof.
  intros Lsub Lhalf Lmul Ldiv Ladd Lone E n Hn.
  destruct (solve_sde_inv _ _ _ _ _ _ _ _ E)
    as (x0 & wi & Y1 & _ & HN & Er & Hshape & Hrow0 & Hsteps).
  injection Er as -> ->.
  destruct (Hsteps n) as (yn & yn1 & Hyn & Hyn1 & Hrel); [lia|].
  destruct Hrel as (tn & a & b & dW & supp & bs & w0 & w1 & w2 & w3 & w4
                    & Ht & Ea & Eb & Ew & Es & Hcomp).
  unfold pure_cb, lift in Eb, Es.
  injection Eb as <- <-. injection Es as <- <-.
  assert (Hlen : length yn1 = length yn).
  { pose proof (map_nth_error (@length R) _ _ Hyn) as L1.
    pose proof (map_nth_error (@length R) _ _ Hyn1) as L2.
    rewrite Hshape in L1, L2.
    apply nth_error_In, repeat_spec in L1.
    apply nth_error_In, repeat_spec in L2. congruence. }
  exists x0, yn, yn1, tn, a, dW, w0, w1, w3.
  do 7 (split; [assumption|]).
  intros i yi Hyi.
  assert (Hi : i < length yn1).
  { rewrite Hlen. apply nth_error_Some. congruence. }
  destruct (Hcomp i yi Hyi Hi)
    as (ai & bi & dWi & bsi & Hai & Hbi & Hwi & Hsi & _ & Hnew).
  assert (bsi = bi) as -> by congruence.
  rewrite Lsub, Lhalf, Lmul, Ldiv, Ladd, Lone in Hnew.
  exists ai, bi, dWi. repeat split; assumption.
Qed.

End AdditiveNoise.

(* ------------------------------------------------------------------ *)
(** ** What a call takes from the generator *)

Section Generator.
Context {R W : Type} `{Scalar R} `{World R W}.

Lemma after_draws_add (a b : nat) (w : W) :
  after_draws (a + b) w = after_draws b (after_draws a w).
Proof.
  unfold after_draws. revert w. induction a as [|a IH]; intros w; simpl.
  - reflexivity.
  - destruct (gauss w) as [x w1]. specialize (IH w1).
    destruct (draws (a + b) w1) as [xs w2].
    destruct (draws a w1) as [ys w3]. exact IH.
Qed.

Lemma default_wiener_world (x0 : list R) y dt (w : W) v w' :
  default_wiener x0 y dt w = (Ok v, w') ->
  w' = after_draws (length x0) w.
Proof.
  rewrite default_wiener_scaled. unfold scaled_normal, after_draws.
  destruct (draws (length x0) w) as [z w1]. intros E. now inversion E.
Qed.

Lemma step_world fa fb (x0 : list R) ti dt Dn Wn n Y (w : W) Y' w' :
  step (pure_cb fa) (pure_cb fb) (default_wiener x0) ti dt Dn Wn n Y w
  = (Ok Y', w') ->
  w' = after_draws (length x0) w.
Proof.
  unfold step, rhs, pure_cb. intros E. monad_inv_all.
  match goal with
  | Hw : default_wiener _ _ _ _ = _ |- _ =>
      exact (default_wiener_world _ _ _ _ Hw)
  end.
Qed.

Lemma loop_world fa fb (x0 : list R) ti dt Dn Wn ns : forall Y (w : W) Y' w',
  for_each ns (step (pure_cb fa) (pure_cb fb) (default_wiener x0)
                    ti dt Dn Wn) Y w
  = (Ok Y', w') ->
  w' = after_draws (length ns * length x0) w.
Proof.
  induction ns as [|n ns IH]; intros Y w Y' w' E; simpl in E.
  - monad_inv E. reflexivity.
  - apply bind_ok in E. destruct E as (Y1 & w1 & E1 & E).
    apply step_world in E1. apply IH in E. subst w1.
    change (length (n :: ns) * length x0)
      with (length x0 + length ns * length x0).
    now rewrite after_draws_add.
Qed.

(** After the initial state, the steps make [len(X0)] draws each. *)
Lemma solve_sde_draws fa fb X0 dt N t0 (w : W) r w' x0 w1 :
  initial_state (pure_cb fa) X0 w = (Ok x0, w1) ->
  solve_sde (Some (pure_cb fa)) (Some (pure_cb fb)) X0 dt N t0 None w
  = (Ok r, w') ->
  w' = after_draws (Z.to_nat (N - 1) * length x0) w1.
Proof.
  intros Ei E. unfold solve_sde in E.
  erewrite bind_step in E by exact Ei. cbv zeta in E.
  monad_inv_all.
  match goal with
  | Hl : for_each _ _ _ _ = _ |- _ => apply loop_world in Hl; rename Hl into Hw
  end.
  unfold range in Hw. now rewrite length_seq in Hw.
Qed.

(** X4.  What a call takes from the random generator when the wiener
    function is left to its default and drift and diffusion are functions
    of their arguments: a returning call with [X0] given has made exactly
    [len(X0) * (N - 1)] draws, one vector of increments for each step; with
    [X0] absent it has made [N] draws, one for the initial state and one
    for each step. *)
Theorem draws_of_a_call fa fb X0 dt N t0 (w : W) r w' :
  solve_sde (Some (pure_cb fa)) (Some (pure_cb fb)) X0 dt N t0 None w
  = (Ok r, w') ->
  w' = after_draws (match X0 with
                    | Some x => Z.to_nat (N - 1) * length x
                    | None => Z.to_nat N
                    end) w.
Proof.
  intros E.
  destruct (solve_sde_inv _ _ _ _ _ _ _ _ E)
    as (x0 & w1 & _ & Ei & HN & _).
  rewrite (solve_sde_draws _ _ _ _ _ _ _ Ei E).
  destruct X0 as [x|]; simpl in Ei.
  - injection Ei as <- <-. reflexivity.
  - unfold pure_cb, lift, bind in Ei.
    destruct (fa (VScalar zero) zero) as [[z|l]|e]; simpl in Ei;
      try discriminate.
    destruct (gauss w) as [g wg] eqn:Eg. injection Ei as <- <-.
    simpl length. rewrite Nat.mul_1_r.
    replace (Z.to_nat N) with (1 + Z.to_nat (N - 1)) by lia.
    rewrite after_draws_add. f_equal.
    unfold after_draws. simpl. now rewrite Eg.
Qed.

End Generator.

(* ------------------------------------------------------------------ *)
(** ** Where an exception comes from *)

Section Exceptions.
Context {R W : Type} `{Scalar R} `{World R W}.
















End Exceptions.

(* ------------------------------------------------------------------ *)
(** ** The time origin and the horizon *)

Section Horizon.
Context {R W : Type} `{Scalar R} `{World R W}.

(** A turn of the loop reads the grid and the trajectory at [n] only. *)
Lemma rhs_congr (alfa beta DW : @callback R W) ti ti' dt Dn Wn n Y Y' w :
  index ti n = index ti' n -> row Y n = row Y' n ->
  rhs alfa beta DW ti dt Dn Wn n Y w = rhs alfa beta DW ti' dt Dn Wn n Y' w.
Proof. intros Hi Hr. unfold rhs. rewrite Hi, Hr. reflexivity. Qed.

Lemma rhs_time (alfa beta DW : @callback R W) ti ti' dt Dn Wn n Y w :
  autonomous alfa -> autonomous beta -> length ti = length ti' ->
  rhs alfa beta DW ti dt Dn Wn n Y w = rhs alfa beta DW ti' dt Dn Wn n Y w.
Proof.
  intros Ha Hb Hlen. unfold rhs, index.
  destruct (nth_error ti n) as [t|] eqn:Et,
           (nth_error ti' n) as [t'|] eqn:Et'.
  - rewrite !bind_lift_Ok.
    repeat (apply bind_ext;
            [first [reflexivity | apply Ha | apply Hb] | intros]).
    reflexivity.
  - apply nth_error_None in Et'.
    assert (n < length ti) by (apply nth_error_Some; congruence). lia.
  - apply nth_error_None in Et.
    assert (n < length ti') by (apply nth_error_Some; congruence). lia.
  - reflexivity.
Qed.

(** X6.  For drift and diffusion that do not look at the time, the time
    origin [t0] only moves the time grid: the call with another origin
    returns the same trajectory, or ends in the same exception, and leaves
    the same world. *)
Theorem autonomous_trajectory_ignores_t0
        (alfa beta : @callback R W) X0 dt N t0 t0' DW w :
  autonomous alfa -> autonomous beta ->
  solve_sde (Some alfa) (Some beta) X0 dt N t0' DW w
  = with_grid (time_grid N dt t0')
              (solve_sde (Some alfa) (Some beta) X0 dt N t0 DW w).
Proof.
  intros Ha Hb. unfold solve_sde.
  destruct (initial_state alfa X0 w) as [[x0|e] w1] eqn:Ei.
  - rewrite !(@bind_step W _ (retval R) (initial_state alfa X0) _ w x0 w1 Ei).
    cbv zeta.
    destruct (np_zeros N (length x0)) as [Y0|e]; [|reflexivity].
    rewrite !bind_lift_Ok.
    destruct (assign_row 0 (VVec x0) Y0) as [Y1|e]; [|reflexivity].
    rewrite !bind_lift_Ok.
    assert (El : for_each (range (N - 1))
                   (step alfa beta (wiener_of DW x0) (time_grid N dt t0')
                         dt dt one) Y1 w1
                 = for_each (range (N - 1))
                     (step alfa beta (wiener_of DW x0) (time_grid N dt t0)
                           dt dt one) Y1 w1).
    { apply for_each_ext. intros n Y w2. unfold step.
      apply bind_ext; [|reflexivity].
      apply rhs_time; auto. now rewrite !time_grid_length. }
    unfold bind at 1. rewrite El. unfold bind.
    destruct (for_each (range (N - 1))
                (step alfa beta (wiener_of DW x0) (time_grid N dt t0)
                      dt dt one) Y1 w1) as [[Y2|e] w2]; reflexivity.
  - rewrite !(@bind_raise W _ (retval R) (initial_state alfa X0) _ w e w1 Ei).
    reflexivity.
Qed.

Lemma for_each_app (body : nat -> matrix R -> M W (matrix R)) l1 l2 :
  forall Y w,
    for_each (l1 ++ l2) body Y w
    = bind (for_each l1 body Y) (for_each l2 body) w.
Proof.
  induction l1 as [|n l1 IH]; intros Y w; simpl.
  - reflexivity.
  - unfold bind. destruct (body n Y w) as [[Y1|e] w1]; [|reflexivity].
    rewrite IH. reflexivity.
Qed.

Lemma set_nth_firstn {A} (m i : nat) (x : A) (l : list A) :
  firstn m (set_nth i x l) = set_nth i x (firstn m l).
Proof.
  revert m i. induction l as [|a l IH]; intros m i.
  - destruct m, i; reflexivity.
  - destruct m as [|m], i as [|i]; simpl; try reflexivity.
    now rewrite IH.
Qed.

Lemma firstn_nth_ext {A} (m : nat) : forall l1 l2 : list A,
  (forall j, j < m -> nth_error l1 j = nth_error l2 j) ->
  firstn m l1 = firstn m l2.
Proof.
  induction m as [|m IH]; intros l1 l2 Hj; [reflexivity|].
  pose proof (Hj 0 ltac:(lia)) as H0'.
  destruct l1 as [|a l1], l2 as [|b l2]; simpl in *; try discriminate.
  - reflexivity.
  - injection H0' as <-. f_equal. apply IH.
    intros j Hlt. apply (Hj (S j)). lia.
Qed.

Lemma firstn_seq_le (m n : nat) : m <= n -> firstn m (seq 0 n) = seq 0 m.
Proof.
  intros Hle. replace n with (m + (n - m)) by lia.
  rewrite seq_app, firstn_app, length_seq, Nat.sub_diag. simpl.
  rewrite firstn_all2 by (rewrite length_seq; lia). apply app_nil_r.
Qed.

Lemma time_grid_firstn (N M : Z) (dt t0 : R) :
  (0 <= M <= N)%Z ->
  firstn (Z.to_nat M) (time_grid N dt t0) = time_grid M dt t0.
Proof.
  intros HM. unfold time_grid. rewrite firstn_map.
  now rewrite firstn_seq_le by lia.
Qed.

Lemma step_firstn (alfa beta DW : @callback R W) ti ti' dt Dn Wn
      m n Y w Y' w' :
  n + 1 < m -> index ti' n = index ti n ->
  step alfa beta DW ti dt Dn Wn n Y w = (Ok Y', w') ->
  step alfa beta DW ti' dt Dn Wn n (firstn m Y) w = (Ok (firstn m Y'), w').
Proof.
  intros Hn Hi E. unfold step in *. apply bind_ok in E.
  destruct E as (v & w1 & Er & Ea).
  apply lift_ok in Ea. destruct Ea as [Ea ->].
  assert (Hrow : row (firstn m Y) n = row Y n).
  { unfold row. rewrite nth_error_firstn.
    destruct (Nat.ltb_spec n m); [reflexivity | lia]. }
  rewrite <- (rhs_congr alfa beta DW ti' ti dt Dn Wn n (firstn m Y) Y w
                        Hi Hrow) in Er.
  erewrite bind_step by exact Er.
  unfold lift, assign_row in *. rewrite nth_error_firstn.
  destruct (Nat.ltb_spec (n + 1) m); [|lia].
  destruct (nth_error Y (n + 1)) as [old|]; [|discriminate].
  destruct (fit (length old) v) as [r|]; [|discriminate].
  injection Ea as <-. now rewrite set_nth_firstn.
Qed.

Lemma loop_firstn (alfa beta DW : @callback R W) ti ti' dt Dn Wn m len :
  forall k Y w Y' w',
    k + len < m ->
    (forall n, n < m -> index ti' n = index ti n) ->
    for_each (seq k len) (step alfa beta DW ti dt Dn Wn) Y w = (Ok Y', w') ->
    for_each (seq k len) (step alfa beta DW ti' dt Dn Wn) (firstn m Y) w
    = (Ok (firstn m Y'), w').
Proof.
  induction len as [|len IH]; intros k Y w Y' w' Hk Hi E; simpl in *.
  - monad_inv E. reflexivity.
  - apply bind_ok in E. destruct E as (Y1 & w1 & E1 & E).
    erewrite bind_step
      by (eapply step_firstn; [| |exact E1]; [lia | apply Hi; lia]).
    apply IH; auto. lia.
Qed.

(** A call of [N] steps, cut after its first [M - 1] steps: the first
    part is what the call of [M] steps does. *)
Lemma run_split (alfa beta : @callback R W) X0 dt N M t0 DW w ti Y w' :
  solve_sde (Some alfa) (Some beta) X0 dt N t0 DW w
  = (Ok (RetPair ti Y), w') ->
  (0 < M <= N)%Z ->
  exists x0 w1 Ym wm,
    initial_state alfa X0 w = (Ok x0, w1) /\
    for_each (seq 0 (Z.to_nat (M - 1)))
             (step alfa beta (wiener_of DW x0) (time_grid N dt t0)
                   dt dt one)
             (x0 :: repeat (repeat zero (length x0)) (Z.to_nat N - 1)) w1
    = (Ok Ym, wm) /\
    for_each (seq (Z.to_nat (M - 1)) (Z.to_nat N - Z.to_nat M))
             (step alfa beta (wiener_of DW x0) (time_grid N dt t0)
                   dt dt one) Ym wm
    = (Ok Y, w') /\
    solve_sde (Some alfa) (Some beta) X0 dt M t0 DW w
    = (Ok (RetPair (firstn (Z.to_nat M) ti) (firstn (Z.to_nat M) Y)), wm).
Proof.
  intros E HM. unfold solve_sde in *.
  apply bind_ok in E. destruct E as (x0 & w1 & Ei & E).
  erewrite bind_step by exact Ei. cbv zeta in *.
  unfold np_zeros in *.
  destruct (Z.ltb_spec N 0) as [|_]; [lia|].
  destruct (Z.ltb_spec M 0) as [|_]; [lia|].
  rewrite bind_lift_Ok, initial_rows, bind_lift_Ok in * by lia.
  apply bind_ok in E. destruct E as (Y2 & w2 & El & E).
  apply ret_ok in E. destruct E as [E ->]. injection E as Eti EY.
  subst ti Y. unfold range in *.
  replace (Z.to_nat (N - 1))
    with (Z.to_nat (M - 1) + (Z.to_nat N - Z.to_nat M)) in El by lia.
  rewrite seq_app, for_each_app in El.
  apply bind_ok in El. destruct El as (Ym & wm & Ehead & Etail).
  simpl in Etail.
  exists x0, w1, Ym, wm.
  split; [exact Ei|]. split; [exact Ehead|]. split; [exact Etail|].
  set (stepN := step alfa beta (wiener_of DW x0) (time_grid N dt t0)
                     dt dt one) in *.
  assert (Hkeep : firstn (Z.to_nat M) Y2 = firstn (Z.to_nat M) Ym).
  { destruct (for_each_seq_inv stepN
                (srk_rel alfa beta (wiener_of DW x0) (time_grid N dt t0)
                         dt dt one)
                (step_inv alfa beta (wiener_of DW x0) (time_grid N dt t0)
                          dt dt one) _ _ _ _ Etail) as (_ & Hlow & _).
    apply firstn_nth_ext. intros j Hj. apply Hlow. lia. }
  rewrite Hkeep.
  erewrite bind_step.
  - unfold ret. rewrite time_grid_firstn by lia. reflexivity.
  - assert (Hinit : x0 :: repeat (repeat zero (length x0)) (Z.to_nat M - 1)
                    = firstn (Z.to_nat M)
                        (x0 :: repeat (repeat zero (length x0))
                                     (Z.to_nat N - 1))).
    { replace (Z.to_nat M) with (S (Z.to_nat M - 1)) at 2 by lia.
      simpl. f_equal.
      replace (Z.to_nat N - 1)
        with ((Z.to_nat M - 1) + (Z.to_nat N - Z.to_nat M)) by lia.
      rewrite repeat_app, firstn_app, repeat_length, Nat.sub_diag. simpl.
      rewrite firstn_all2 by (rewrite repeat_length; lia).
      now rewrite app_nil_r. }
    rewrite Hinit.
    eapply loop_firstn with (ti := time_grid N dt t0);
      [lia | | exact Ehead].
    intros n Hn. unfold index.
    rewrite !time_grid_nth by lia. reflexivity.
Qed.

(** X7.  The horizon does not reach back: if the call with [N] steps
    returns, the call with fewer steps [M], from the same world, returns
    the first [M] grid points and the first [M] rows of the same
    trajectory. *)
Theorem shorter_run_is_a_prefix
        (alfa beta : @callback R W) X0 dt N M t0 DW w ti Y w' :
  solve_sde (Some alfa) (Some beta) X0 dt N t0 DW w
  = (Ok (RetPair ti Y), w') ->
  (0 < M <= N)%Z ->
  exists w'',
    solve_sde (Some alfa) (Some beta) X0 dt M t0 DW w
    = (Ok (RetPair (firstn (Z.to_nat M) ti) (firstn (Z.to_nat M) Y)), w'').
Proof.
  intros E HM.
  destruct (run_split _ _ _ _ _ _ _ E HM)
    as (x0 & w1 & Ym & wm & _ & _ & _ & EM).
  exists wm. exact EM.
Qed.

Lemma set_nth_skipn {A} (k i : nat) (x : A) : forall l : list A,
  skipn k (set_nth (k + i) x l) = set_nth i x (skipn k l).
Proof.
  induction k as [|k IH]; intros l; [reflexivity|].
  destruct l as [|a l]; simpl.
  - now destruct i.
  - apply IH.
Qed.

Lemma skipn_set_nth_lt {A} (n : nat) (x : A) : forall i (l : list A),
  i < n -> skipn n (set_nth i x l) = skipn n l.
Proof.
  induction n as [|n IH]; intros i l Hi; [lia|].
  destruct l as [|a l], i as [|i]; simpl; try reflexivity.
  apply IH. lia.
Qed.

Lemma skipn_nth {A} (k : nat) (x : A) : forall l : list A,
  nth_error l k = Some x -> skipn k l = x :: skipn (S k) l.
Proof.
  induction k as [|k IH]; intros [|a l] E; simpl in *; try discriminate.
  - now injection E as ->.
  - now apply IH.
Qed.

Lemma skipn_repeat {A} (x : A) (k n : nat) :
  skipn k (repeat x n) = repeat x (n - k).
Proof.
  revert n. induction k as [|k IH]; intros n.
  - now rewrite Nat.sub_0_r.
  - destruct n as [|n]; simpl; [reflexivity | apply IH].
Qed.

(** With callbacks that do not look at the time, a turn of the loop
    depends on the row it reads only. *)
Lemma rhs_auto (alfa beta DW DW' : @callback R W) ti ti' dt Dn Wn
      n n' Y Y' w t t' :
  autonomous alfa -> autonomous beta ->
  (forall y s w0, DW' y s w0 = DW y s w0) ->
  nth_error ti n = Some t -> nth_error ti' n' = Some t' ->
  row Y' n' = row Y n ->
  rhs alfa beta DW' ti' dt Dn Wn n' Y' w = rhs alfa beta DW ti dt Dn Wn n Y w.
Proof.
  intros Ha Hb HDW Ht Ht' Hrow. unfold rhs, index.
  rewrite Ht, Ht', Hrow, !bind_lift_Ok.
  repeat (apply bind_ext;
          [first [reflexivity | apply Ha | apply Hb | apply HDW] | intros]).
  reflexivity.
Qed.

Lemma step_skipn (alfa beta DW DW' : @callback R W) ti ti' dt Dn Wn
      k n Y w Y' w' :
  autonomous alfa -> autonomous beta ->
  (forall y s w0, DW' y s w0 = DW y s w0) ->
  n < length ti' ->
  step alfa beta DW ti dt Dn Wn (k + n) Y w = (Ok Y', w') ->
  step alfa beta DW' ti' dt Dn Wn n (skipn k Y) w = (Ok (skipn k Y'), w').
Proof.
  intros Ha Hb HDW Hn E. unfold step in *. apply bind_ok in E.
  destruct E as (v & w1 & Er & Ea).
  apply lift_ok in Ea. destruct Ea as [Ea ->].
  destruct (nth_error ti (k + n)) as [t|] eqn:Ht;
    [|unfold rhs, index in Er; rewrite Ht in Er; discriminate Er].
  destruct (nth_error ti' n) as [t'|] eqn:Ht';
    [|apply nth_error_None in Ht'; lia].
  assert (Hrow : row (skipn k Y) n = row Y (k + n)).
  { unfold row. now rewrite nth_error_skipn. }
  assert (Er' : rhs alfa beta DW' ti' dt Dn Wn n (skipn k Y) w = (Ok v, w1)).
  { rewrite <- Er. eapply rhs_auto; eassumption. }
  erewrite bind_step by exact Er'.
  unfold lift, assign_row in *. rewrite nth_error_skipn.
  replace (k + (n + 1)) with (k + n + 1) by lia.
  destruct (nth_error Y (k + n + 1)) as [old|]; [|discriminate].
  destruct (fit (length old) v) as [r|]; [|discriminate].
  injection Ea as <-.
  replace (k + n + 1) with (k + (n + 1)) by lia.
  now rewrite set_nth_skipn.
Qed.

Lemma loop_skipn (alfa beta DW DW' : @callback R W) ti ti' dt Dn Wn k len :
  autonomous alfa -> autonomous beta ->
  (forall y s w0, DW' y s w0 = DW y s w0) ->
  forall j Y w Y' w',
    j + len <= length ti' ->
    for_each (seq (k + j) len) (step alfa beta DW ti dt Dn Wn) Y w
    = (Ok Y', w') ->
    for_each (seq j len) (step alfa beta DW' ti' dt Dn Wn) (skipn k Y) w
    = (Ok (skipn k Y'), w').
Proof.
  intros Ha Hb HDW.
  induction len as [|len IH]; intros j Y w Y' w' Hj E; simpl in *.
  - monad_inv E. reflexivity.
  - apply bind_ok in E. destruct E as (Y1 & w1 & E1 & E).
    erewrite bind_step
      by (eapply step_skipn; [exact Ha | exact Hb | exact HDW | lia
                             | exact E1]).
    apply IH; [lia|]. now rewrite Nat.add_succ_r.
Qed.

(** A loop leaves the rows it has not reached yet as they were. *)
Lemma loop_keeps_tail (alfa beta DW : @callback R W) ti dt Dn Wn m :
  forall k Y w Y' w',
    for_each (seq k m) (step alfa beta DW ti dt Dn Wn) Y w = (Ok Y', w') ->
    skipn (S (k + m)) Y' = skipn (S (k + m)) Y.
Proof.
  induction m as [|m IH]; intros k Y w Y' w' E; simpl in E.
  - monad_inv E. reflexivity.
  - apply bind_ok in E. destruct E as (Y1 & w1 & E1 & E).
    apply IH in E. replace (S (k + S m)) with (S (S k + m)) by lia.
    rewrite E.
    destruct (step_inv _ _ _ _ _ _ _ _ _ _ E1)
      as (yn & old & r & _ & _ & _ & -> & _).
    apply skipn_set_nth_lt. lia.
Qed.

(** X8.  A run can be continued.  For drift and diffusion that do not
    look at the time: if the call with [N] steps returns [(ti, Y)], then
    the call with [M <= N] steps returns the first [M] rows, and a new
    call started from the last of these rows, in the world the shorter
    call has left, with [N - M + 1] steps and any time origin, returns the
    remaining rows of [Y], from row [M - 1] on, and leaves the world the
    long call leaves. *)
Theorem run_can_be_continued
        (alfa beta : @callback R W) X0 dt N M t0 t0' DW w ti Y w' :
  autonomous alfa -> autonomous beta ->
  solve_sde (Some alfa) (Some beta) X0 dt N t0 DW w
  = (Ok (RetPair ti Y), w') ->
  (0 < M <= N)%Z ->
  exists xm wm,
    solve_sde (Some alfa) (Some beta) X0 dt M t0 DW w
    = (Ok (RetPair (firstn (Z.to_nat M) ti) (firstn (Z.to_nat M) Y)), wm) /\
    nth_error Y (Z.to_nat (M - 1)) = Some xm /\
    solve_sde (Some alfa) (Some beta) (Some xm) dt (N - M + 1) t0' DW wm
    = (Ok (RetPair (time_grid (N - M + 1) dt t0')
                   (skipn (Z.to_nat (M - 1)) Y)), w').
Proof.
  intros Ha Hb E HM.
  destruct (run_split _ _ _ _ _ _ _ E HM)
    as (x0 & w1 & Ym & wm & Ei & Ehead & Etail & EM).
  set (k := Z.to_nat (M - 1)) in *.
  set (len := Z.to_nat N - Z.to_nat M) in *.
  set (DWf := wiener_of DW x0) in *.
  set (tiN := time_grid N dt t0) in *.
  destruct (for_each_seq_inv _ (srk_rel alfa beta DWf tiN dt dt one)
              (step_inv alfa beta DWf tiN dt dt one) _ _ _ _ Ehead)
    as (Hshape & _ & _).
  rewrite initial_rows_shape in Hshape.
  destruct (for_each_seq_inv _ (srk_rel alfa beta DWf tiN dt dt one)
              (step_inv alfa beta DWf tiN dt dt one) _ _ _ _ Etail)
    as (_ & Hlow & _).
  destruct (nth_error Ym k) as [xm|] eqn:Hxm.
  2:{ apply nth_error_None in Hxm.
      rewrite <- (length_map (@length R)), Hshape, repeat_length in Hxm.
      lia. }
  assert (Hlen : length xm = length x0).
  { apply (map_nth_error (@length R)) in Hxm. rewrite Hshape in Hxm.
    apply nth_error_In in Hxm. now apply repeat_spec in Hxm. }
  exists xm, wm. split; [exact EM|]. split.
  { rewrite Hlow by lia. exact Hxm. }
  assert (Hstart : skipn k Ym
                   = xm :: repeat (repeat zero (length xm)) len).
  { rewrite (skipn_nth _ _ Hxm). f_equal.
    pose proof Ehead as Ht. apply loop_keeps_tail in Ht.
    change (0 + k) with k in Ht. rewrite Ht, skipn_cons.
    rewrite skipn_repeat, Hlen. f_equal. lia. }
  assert (Etail' : for_each (seq (k + 0) len)
                            (step alfa beta DWf tiN dt dt one) Ym wm
                   = (Ok Y, w'))
    by (rewrite Nat.add_0_r; exact Etail).
  assert (Erest : for_each (seq 0 len)
                    (step alfa beta (wiener_of DW xm)
                          (time_grid (N - M + 1) dt t0') dt dt one)
                    (skipn k Ym) wm
                  = (Ok (skipn k Y), w')).
  { eapply loop_skipn; [exact Ha | exact Hb | | | exact Etail'].
    - intros y s w0. unfold DWf, wiener_of.
      destruct DW as [f|]; [reflexivity|].
      rewrite !default_wiener_scaled. now rewrite Hlen.
    - rewrite time_grid_length. lia. }
  rewrite Hstart in Erest.
  unfold solve_sde, initial_state.
  change (bind (ret xm) ?f wm) with (f xm wm). cbv beta zeta.
  unfold np_zeros. destruct (Z.ltb_spec (N - M + 1) 0) as [|_]; [lia|].
  rewrite bind_lift_Ok, initial_rows, bind_lift_Ok by lia.
  unfold range.
  replace (Z.to_nat (N - M + 1) - 1) with len by lia.
  replace (Z.to_nat (N - M + 1 - 1)) with len by lia.
  erewrite bind_step by exact Erest. reflexivity.
Qed.

End Horizon.

(* ------------------------------------------------------------------ *)
(** ** The Wiener process of the script *)

Section WienerProcess.
Context {R W : Type} `{Scalar R} `{World R W}.

Lemma set_nth_app {A} (pre l : list A) (i : nat) (x : A) :
  set_nth (length pre + i) x (pre ++ l) = pre ++ set_nth i x l.
Proof.
  induction pre as [|a pre IH]; simpl; [reflexivity|].
  now rewrite IH.
Qed.

Variable dt : R.
Hypothesis mul_zero_l : forall x : R, fmul zero x = zero.
Hypothesis add_zero_r : forall x : R, fadd x zero = x.
Hypothesis mul_one_l : forall x : R, fmul one x = x.
Hypothesis mul_one_r : forall x : R, fmul x one = x.
Hypothesis sub_one_one : fsub (one : R) one = zero.
Hypothesis half_zero : fmul half (zero : R) = zero.
Hypothesis div_zero_sqrt : fdiv zero (fsqrt dt) = zero.

(** One step of the Wiener process adds one scaled draw. *)
Lemma wiener_step (z0 : R) ti n Y (w : W) t y old :
  nth_error ti n = Some t -> nth_error Y n = Some [y] ->
  nth_error Y (n + 1) = Some [old] ->
  step alfa_wp beta_wp (default_wiener [z0]) ti dt dt one n Y w
  = (let (z, w1) := gauss w in
     (Ok (set_nth (n + 1) [fadd y (fmul z (fsqrt dt))] Y), w1)).
Proof.
  intros Ht Hy Hold.
  unfold step, rhs, index, row, alfa_wp, beta_wp, pure_cb, default_wiener.
  rewrite Ht, Hy. unfold bind, lift, randn, assign_row. simpl.
  destruct (gauss w) as [z w1]. simpl. rewrite Hold. simpl.
  change (of_int 0) with (@zero R _). change (of_int 1) with (@one R _).
  rewrite sub_one_one, half_zero, !mul_zero_l, div_zero_sqrt.
  now rewrite !add_zero_r, mul_one_l, mul_one_r.
Qed.

Lemma wiener_loop (z0 : R) ti m : forall pre y (w : W),
  length pre + m <= length ti ->
  for_each (seq (length pre) m)
           (step alfa_wp beta_wp (default_wiener [z0]) ti dt dt one)
           (pre ++ [y] :: repeat [zero] m) w
  = (let (zs, w') := draws m w in
     (Ok (pre ++ running_sum (fsqrt dt) y zs), w')).
Proof.
  induction m as [|m IH]; intros pre y w Hti; simpl.
  - reflexivity.
  - destruct (nth_error ti (length pre)) as [t|] eqn:Ht;
      [|apply nth_error_None in Ht; lia].
    assert (Hy : nth_error (pre ++ [y] :: [zero] :: repeat [zero] m)
                           (length pre) = Some [y]).
    { rewrite nth_error_app2, Nat.sub_diag by lia. reflexivity. }
    assert (Hold : nth_error (pre ++ [y] :: [zero] :: repeat [zero] m)
                             (length pre + 1) = Some [zero]).
    { rewrite nth_error_app2 by lia.
      replace (length pre + 1 - length pre) with 1 by lia. reflexivity. }
    unfold bind.
    rewrite (@wiener_step z0 ti (length pre) _ w t y zero Ht Hy Hold).
    destruct (gauss w) as [z w1].
    rewrite set_nth_app. simpl set_nth.
    specialize (IH (pre ++ [[y]]) (fadd y (fmul z (fsqrt dt))) w1).
    rewrite length_app, <- app_assoc in IH. simpl in IH.
    rewrite Nat.add_1_r in IH. rewrite IH by lia.
    destruct (draws m w1) as [zs w2]. now rewrite <- app_assoc.
Qed.

(** X9.  The Wiener process of the script, [alfa = 0] and [beta = 1] with
    everything else left to its default: the call draws the initial state
    and then one increment for each step, and the trajectory is the path
    of the running sums [Y_0 = z_0], [Y_{n+1} = Y_n + z_{n+1}*sqrt(dt)] of
    the draws [z_0, z_1, ...], one variable wide.  The arithmetic is taken
    exact: [0*x = 0], [x + 0 = x], [1*x = x], [x*1 = x], [1 - 1 = 0],
    [0.5*0 = 0] and [0/sqrt(dt) = 0]. *)
Theorem wiener_process_is_running_sum (N : Z) (t0 : R) (w : W) :
  (0 < N)%Z ->
  solve_sde (Some alfa_wp) (Some beta_wp) None dt N t0 None w
  = (let (z0, w1) := gauss w in
     let (zs, w') := draws (Z.to_nat (N - 1)) w1 in
     (Ok (RetPair (time_grid N dt t0) (running_sum (fsqrt dt) z0 zs)), w')).
Proof.
  intros HN. unfold solve_sde, initial_state.
  unfold bind at 1 2. unfold alfa_wp at 1, pure_cb at 1, lift at 1.
  simpl. destruct (gauss w) as [z0 w1].
  unfold np_zeros. destruct (Z.ltb_spec N 0) as [|_]; [lia|].
  rewrite bind_lift_Ok.
  rewrite (initial_rows [z0]) by lia. rewrite bind_lift_Ok.
  unfold range, wiener_of.
  replace (Z.to_nat N - 1) with (Z.to_nat (N - 1)) by lia.
  pose proof (wiener_loop z0 (time_grid N dt t0) (Z.to_nat (N - 1))
                          [] z0 w1) as Hl.
  simpl in Hl. unfold bind. simpl length.
  change (repeat (@zero R _) 1) with [@zero R _]. rewrite Hl.
  - destruct (draws (Z.to_nat (N - 1)) w1) as [zs w2]. reflexivity.
  - rewrite time_grid_length. lia.
Qed.

End WienerProcess.

(* ------------------------------------------------------------------ *)
(** ** A state where drift and diffusion vanish *)

Section RestPoint.
Context {R W : Type} `{Scalar R} `{World R W}.

Hypothesis mul_zero_l : forall x : R, fmul zero x = zero.
Hypothesis add_zero_r : forall x : R, fadd x zero = x.
Hypothesis sub_zero_zero : fsub (zero : R) zero = zero.
Hypothesis half_zero : fmul half (zero : R) = zero.

Variables fa fb : value R -> R -> outcome (value R).
Variable DW : option (@callback R W).
Variable dt : R.
Variable x0 : list R.

Hypothesis div_zero_sqrt : fdiv zero (fsqrt dt) = zero.
Hypothesis fa_rest :
  forall t, exists z, fa (VVec x0) t = Ok z /\ zero_value (length x0) z.
Hypothesis fb_rest :
  forall t, exists z, fb (VVec x0) t = Ok z /\ zero_value (length x0) z.
Hypothesis DW_shaped :
  forall w, exists v w', wiener_of DW x0 (VVec x0) dt w = (Ok v, w')
                         /\ shaped (length x0) v.

Lemma rest_rhs ti n Y w t :
  nth_error ti n = Some t -> nth_error Y n = Some x0 ->
  exists w', rhs (pure_cb fa) (pure_cb fb) (wiener_of DW x0)
                 ti dt dt one n Y w
             = (Ok (VVec x0), w').
Proof.
  intros Ht Hy. unfold rhs, index, row, pure_cb. rewrite Ht, Hy.
  rewrite !bind_lift_Ok.
  destruct (fa_rest t) as (a & Ea & Ha). rewrite Ea, !bind_lift_Ok.
  destruct (fb_rest t) as (b & Eb & Hb). rewrite Eb, !bind_lift_Ok.
  destruct (DW_shaped w) as (dW & w1 & Ew & HdW).
  erewrite bind_step by exact Ew. rewrite bind_lift_Ok.
  assert (Hl : length x0 = length x0 \/ length x0 = 1) by now left.
  set (d := length x0) in *.
  destruct (@zero_mul R _ mul_zero_l d _ (VScalar dt) Ha I)
    as (aDn & E1 & Hz1).
  rewrite E1, bind_lift_Ok.
  rewrite (@plus_zero R _ add_zero_r d x0 _ Hl Hz1), bind_lift_Ok.
  destruct (@zero_mul R _ mul_zero_l d _ _ Hb HdW) as (bDW & E2 & Hz2).
  rewrite E2, bind_lift_Ok.
  destruct (@zero_mul R _ mul_zero_l d _ (VScalar one) Hz2 I)
    as (bDWW & E3 & Hz3).
  rewrite E3, bind_lift_Ok.
  rewrite (@plus_zero R _ add_zero_r d x0 _ Hl Hz3), !bind_lift_Ok.
  rewrite (@plus_zero R _ add_zero_r d x0 _ Hl Hz1), bind_lift_Ok.
  destruct (@zero_mul R _ mul_zero_l d _ (VScalar (fsqrt dt)) Hb I)
    as (bsq & E4 & Hz4).
  rewrite E4, bind_lift_Ok.
  rewrite (@plus_zero R _ add_zero_r d x0 _ Hl Hz4), bind_lift_Ok.
  rewrite Eb, bind_lift_Ok.
  destruct (@zero_sub R _ sub_zero_zero d _ _ Hb Hb) as (df & E5 & Hz5).
  rewrite E5, bind_lift_Ok.
  destruct (@zero_half R _ half_zero d _ Hz5) as (h & E6 & Hz6).
  rewrite E6, bind_lift_Ok.
  destruct (@shaped_scalar_op R fpow d _ two HdW) as (sq & E7 & Hsq).
  rewrite E7, bind_lift_Ok.
  destruct (@shaped_scalar_op R fsub d _ dt Hsq) as (q & E8 & Hq).
  rewrite E8, bind_lift_Ok.
  destruct (@zero_mul R _ mul_zero_l d _ _ Hz6 Hq) as (hq & E9 & Hz9).
  rewrite E9, bind_lift_Ok.
  destruct (@zero_div R _ d _ _ div_zero_sqrt Hz9) as (c & E10 & Hz10).
  rewrite E10, bind_lift_Ok.
  rewrite (@plus_zero R _ add_zero_r d x0 _ Hl Hz10).
  exists w1. reflexivity.
Qed.

Lemma rest_step ti n Y w t old :
  nth_error ti n = Some t -> nth_error Y n = Some x0 ->
  nth_error Y (n + 1) = Some old -> length old = length x0 ->
  exists w', step (pure_cb fa) (pure_cb fb) (wiener_of DW x0)
                  ti dt dt one n Y w
             = (Ok (set_nth (n + 1) x0 Y), w').
Proof.
  intros Ht Hy Hold Hlen.
  destruct (rest_rhs ti n Y w Ht Hy) as (w' & E).
  exists w'. unfold step. erewrite bind_step by exact E.
  unfold lift, assign_row. rewrite Hold. simpl.
  now rewrite Hlen, Nat.eqb_refl.
Qed.

Lemma rest_loop ti m : forall k w,
  k + m <= length ti ->
  exists w',
    for_each (seq k m)
             (step (pure_cb fa) (pure_cb fb) (wiener_of DW x0)
                   ti dt dt one)
             (repeat x0 (S k) ++ repeat (repeat zero (length x0)) m) w
    = (Ok (repeat x0 (S k + m)), w').
Proof.
  induction m as [|m IH]; intros k w Hti.
  - exists w. simpl for_each. rewrite app_nil_r, Nat.add_0_r. reflexivity.
  - destruct (nth_error ti k) as [t|] eqn:Ht;
      [|apply nth_error_None in Ht; lia].
    set (Y := repeat x0 (S k) ++ repeat (repeat zero (length x0)) (S m)).
    assert (Hy : nth_error Y k = Some x0).
    { unfold Y. rewrite nth_error_app1 by (rewrite repeat_length; lia).
      apply nth_error_repeat. lia. }
    assert (Hold : nth_error Y (k + 1)
                   = Some (repeat zero (length x0))).
    { unfold Y. rewrite nth_error_app2 by (rewrite repeat_length; lia).
      rewrite repeat_length.
      replace (k + 1 - S k) with 0 by lia. reflexivity. }
    destruct (rest_step ti k Y w Ht Hy Hold (repeat_length _ _))
      as (w1 & E1).
    destruct (IH (S k) w1 ltac:(lia)) as (w' & E).
    exists w'. simpl for_each. erewrite bind_step by exact E1.
    replace (S k + S m) with (S (S k) + m) by lia. rewrite <- E.
    f_equal. unfold Y.
    replace (k + 1) with (length (repeat x0 (S k)) + 0)
      by (rewrite repeat_length; lia).
    rewrite set_nth_app. simpl set_nth.
    change (repeat x0 (S (S k))) with (x0 :: repeat x0 (S k)).
    rewrite (repeat_cons (S k) x0), <- app_assoc. reflexivity.
Qed.

(** X10.  A state where drift and diffusion both vanish is kept: started
    there, the call returns the trajectory all of whose [N] rows are [X0],
    whatever the noise (of the state's shape) is.  The arithmetic is taken
    exact: [0*x = 0], [x + 0 = x], [0 - 0 = 0], [0.5*0 = 0] and
    [0/sqrt(dt) = 0]. *)
Theorem rest_point_is_kept (N : Z) (t0 : R) (w : W) :
  (0 < N)%Z ->
  exists w',
    solve_sde (Some (pure_cb fa)) (Some (pure_cb fb)) (Some x0) dt N t0 DW w
    = (Ok (RetPair (time_grid N dt t0) (repeat x0 (Z.to_nat N))), w').
Proof.
  intros HN. unfold solve_sde, initial_state.
  change (bind (ret x0) ?k w) with (k x0 w). cbv beta zeta.
  unfold np_zeros. destruct (Z.ltb_spec N 0) as [|_]; [lia|].
  rewrite bind_lift_Ok, initial_rows, bind_lift_Ok by lia.
  destruct (rest_loop (time_grid N dt t0) (Z.to_nat (N - 1)) 0 w)
    as (w' & E).
  { rewrite time_grid_length. lia. }
  exists w'. unfold range.
  replace (Z.to_nat N - 1) with (Z.to_nat (N - 1)) by lia.
  change (x0 :: repeat (repeat zero (length x0)) (Z.to_nat (N - 1)))
    with (repeat x0 1 ++ repeat (repeat zero (length x0)) (Z.to_nat (N - 1))).
  erewrite bind_step by exact E. unfold ret.
  replace (1 + Z.to_nat (N - 1)) with (Z.to_nat N) by lia. reflexivity.
Qed.

End RestPoint.

(* ------------------------------------------------------------------ *)
(** ** Callbacks and the shape of the state *)

Section Shapes.
Context {R W : Type} `{Scalar R} `{World R W}.

Lemma default_wiener_regular (x0 : list R) :
  regular_on (length x0) (default_wiener x0 : @callback R W).
Proof. intros l t w _. apply default_wiener_shaped. Qed.


(** The first turn of the loop, when there is one. *)
Lemma first_step_raises (alfa beta : @callback R W) x0 dt N t0 DW w e w' :
  (2 <= N)%Z ->
  rhs alfa beta (wiener_of DW x0) (time_grid N dt t0) dt dt one 0
      (x0 :: repeat (repeat zero (length x0)) (Z.to_nat N - 1)) w
  = (Raise e, w') ->
  solve_sde (Some alfa) (Some beta) (Some x0) dt N t0 DW w = (Raise e, w').
Proof.
  intros HN E. unfold solve_sde, initial_state.
  change (bind (ret x0) ?k w) with (k x0 w). cbv beta zeta.
  unfold np_zeros. destruct (Z.ltb_spec N 0) as [|_]; [lia|].
  rewrite bind_lift_Ok, initial_rows, bind_lift_Ok by lia.
  unfold range. replace (Z.to_nat (N - 1)) with (S (Z.to_nat (N - 2))) by lia.
  simpl seq. simpl for_each. unfold step at 1.
  erewrite bind_raise; [reflexivity|].
  erewrite bind_raise; [reflexivity|].
  erewrite bind_raise; [reflexivity | exact E].
Qed.

Lemma bcast_mismatch (f : R -> R -> R) (l1 l2 : list R) :
  length l1 <> length l2 -> length l1 <> 1 -> length l2 <> 1 ->
  bcast f (VVec l1) (VVec l2) = Raise ValueError.
Proof.
  intros Hne H1 H2. simpl.
  destruct (Nat.eqb_spec (length l1) (length l2)); [contradiction|].
  destruct l1 as [|a [|a' l1]], l2 as [|b [|b' l2]];
    simpl in *; congruence.
Qed.

(** X12.  A drift that returns an array of the wrong length is found out
    in the first step: the three callbacks are called on the initial
    state, then [Y[0, :] + a*Dn] cannot be broadcast and the call ends in
    a ValueError.  (An array of one entry is stretched, as numpy does, and
    is no error.) *)
Theorem drift_of_wrong_length
        (alfa beta : @callback R W) x0 dt N t0 DW w l b dW w1 w2 w3 :
  (2 <= N)%Z ->
  length l <> length x0 -> length l <> 1 -> length x0 <> 1 ->
  alfa (VVec x0) (fadd (fmul (of_int 0) dt) t0) w = (Ok (VVec l), w1) ->
  beta (VVec x0) (fadd (fmul (of_int 0) dt) t0) w1 = (Ok b, w2) ->
  wiener_of DW x0 (VVec x0) dt w2 = (Ok dW, w3) ->
  solve_sde (Some alfa) (Some beta) (Some x0) dt N t0 DW w
  = (Raise ValueError, w3).
Proof.
  intros HN Hne Hl Hx Ea Eb Ew. apply first_step_raises; [exact HN|].
  unfold rhs, index, row. rewrite time_grid_nth by lia. simpl nth_error.
  rewrite !bind_lift_Ok.
  erewrite bind_step by exact Ea. rewrite bind_lift_Ok.
  erewrite bind_step by exact Eb. rewrite bind_lift_Ok.
  erewrite bind_step by exact Ew. rewrite bind_lift_Ok.
  change (bcast fmul (VVec l) (VScalar dt))
    with (Ok (VVec (map (fun a => fmul a dt) l))).
  rewrite bind_lift_Ok.
  rewrite bcast_mismatch; [reflexivity | | assumption |];
    rewrite length_map; auto.
Qed.

Lemma alfa_sl_regular : regular_on 3 (alfa_sl : @callback R W).
Proof.
  intros l t w Hl.
  destruct l as [|a [|b [|c [|]]]]; try discriminate Hl.
  eexists; eexists. split; [reflexivity | reflexivity].
Qed.

Lemma beta_sl_regular : regular_on 3 (beta_sl : @callback R W).
Proof.
  intros l t w Hl.
  destruct l as [|a [|b [|c [|]]]]; try discriminate Hl.
  eexists; eexists. split; [reflexivity | reflexivity].
Qed.

Lemma alfa_sl_short (l : list R) t (w : W) :
  length l < 3 -> alfa_sl (VVec l) t w = (Raise IndexError, w).
Proof.
  intros Hl. destruct l as [|a [|b [|c l]]]; simpl in Hl; try lia;
    reflexivity.
Qed.

(** X13.  The stochastic Lorenz system of the script is a system of three
    variables.  Started from an initial state of three entries, with the
    default wiener function, the call returns [N] rows of three entries,
    the first of them [X0], and has made [3*(N-1)] draws.  Without [X0] the
    probe [alfa(0, 0)] subscripts the integer 0 and the call ends in a
    TypeError; with fewer than three entries the first step ends in an
    IndexError.  Neither failure touches the generator. *)
Theorem lorenz_system_needs_three_variables x0 dt N t0 (w : W) :
  (length x0 = 3 -> (0 < N)%Z ->
   exists Y,
     solve_sde (Some alfa_sl) (Some beta_sl) (Some x0) dt N t0 None w
     = (Ok (RetPair (time_grid N dt t0) Y),
        after_draws (Z.to_nat (N - 1) * 3) w) /\
     length Y = Z.to_nat N /\ nth_error Y 0 = Some x0 /\
     forall r, In r Y -> length r = 3) /\
  solve_sde (Some alfa_sl) (Some beta_sl) None dt N t0 None w
  = (Raise TypeError, w) /\
  (length x0 < 3 -> (2 <= N)%Z ->
   solve_sde (Some alfa_sl) (Some beta_sl) (Some x0) dt N t0 None w
   = (Raise IndexError, w)).
Proof.
  split; [|split].
  - intros Hl HN.
    destruct (@solve_sde_returns_on R W _ _ alfa_sl beta_sl x0 dt N t0
                None w HN) as (Y & w' & E).
    + rewrite Hl. apply alfa_sl_regular.
    + rewrite Hl. apply beta_sl_regular.
    + apply default_wiener_regular.
    + exists Y.
      assert (Ew : w' = after_draws (Z.to_nat (N - 1) * length x0) w).
      { eapply solve_sde_draws; [|exact E]. reflexivity. }
      rewrite Hl in Ew. subst w'. split; [exact E|].
      destruct (solve_sde_inv _ _ _ _ _ _ _ _ E)
        as (x & wi & Y1 & Ei & _ & Er & Hshape & Hrow0 & _).
      injection Er as <-. simpl in Ei. injection Ei as <- <-.
      split; [|split].
      * rewrite <- (length_map (@length R) Y), Hshape. apply repeat_length.
      * exact Hrow0.
      * intros r Hr. apply (in_map (@length R)) in Hr.
        rewrite Hshape in Hr. apply repeat_spec in Hr. congruence.
  - reflexivity.
  - intros Hl HN. apply first_step_raises; [exact HN|].
    unfold rhs, index, row. rewrite time_grid_nth by lia. simpl nth_error.
    rewrite !bind_lift_Ok.
    erewrite bind_raise; [reflexivity|]. now apply alfa_sl_short.
Qed.

End Shapes.

(* ------------------------------------------------------------------ *)
(** ** The concrete runs *)

Lemma demo_run_returns :
  demo_run = (Ok (RetPair (times_of demo_run) (trajectory_of demo_run)),
              snd demo_run).
Proof. vm_compute. reflexivity. Qed.

(** Seeds 3, 4 make the first noise [3, 4]: row 1 is
    [1 - 1 + 1*3 + 0, 2 - 2 + 4*4 + 0.5*(16 - 4)*(16 - 1)/1] = [3, 106]. *)
Example demo_run_values :
  map this (times_of demo_run) = [0; 1; 2]%Q /\
  map (map this) (trajectory_of demo_run)
  = [[1; 2]; [3; 106]; [909; 2209205466]]%Q /\
  seed (snd demo_run) = 7%Z.
Proof. vm_compute. repeat split. Qed.

Lemma srk_update_formula_witness :
  (forall x : Qc, fmul x one = x) /\
  (Z.of_nat 0 <= 3 - 2)%Z /\
  exists yn yn1 ai bi dWi bsi,
    nth_error (trajectory_of demo_run) 0 = Some yn /\
    nth_error (trajectory_of demo_run) 1 = Some yn1 /\
    nth_error yn1 0
    = Some (spec_update (Q2Qc 1) ai bi dWi bsi (Q2Qc 1)).
Proof.
  assert (Hone : forall x : Qc, fmul x one = x) by exact Qcmult_1_r.
  split; [exact Hone|]. split; [lia|].
  destruct (@srk_update_formula Qc console _ _ decay squared
              (Some start) (Q2Qc 1) 3 (Q2Qc 0) None w0 _ _ _
              Hone demo_run_returns 0%nat ltac:(lia))
    as (x0 & yn & yn1 & tn & a & b & dW & supp & bs & wa & wb & wc & wd
        & we & Hx0 & Hyn & Hyn1 & Htn & Ea & Eb & Ew & Es & Hlen & Hcomp).
  assert (Hy0 : nth_error yn 0 = Some (Q2Qc 1)).
  { vm_compute in Hyn. injection Hyn as <-. reflexivity. }
  destruct (Hcomp 0 (Q2Qc 1) Hy0)
    as (ai & bi & dWi & bsi & _ & _ & _ & _ & _ & Hnew).
  exists yn, yn1, ai, bi, dWi, bsi. repeat split; assumption.
Defined.



Lemma missing_function_reported_witness :
  (@None (@callback Qc console) = None \/ Some squared = None) /\
  solve_sde None (Some squared) (Some start) (Q2Qc 1) 3 (Q2Qc 0) None w0
  = (Ok RetNone, print error_message w0).
Proof.
  split; [left; reflexivity|].
  apply missing_function_reported. left; reflexivity.
Defined.

Example missing_function_output :
  stdout (snd (solve_sde None (Some squared) (Some start)
                         (Q2Qc 1) 3 (Q2Qc 0) None w0))
  = ["Error: SDE not defined."%string].
Proof. reflexivity. Qed.

Lemma missing_function_returns_none_witness :
  (Some decay = None \/ @None (@callback Qc console) = None) /\
  (r <- solve_sde (Some decay) None (Some start) (Q2Qc 1) 3 (Q2Qc 0) None ;;
   lift (unpack2 r)) w0
  = (Raise TypeError, print error_message w0).
Proof.
  split; [right; reflexivity|].
  apply (@missing_function_returns_none Qc console _ _ (Some decay) None
           (Some start) (Q2Qc 1) 3 (Q2Qc 0) None w0).
  right; reflexivity.
Defined.

Lemma single_step_count_witness :
  fmul zero (Q2Qc 1) = (zero : Qc) /\
  fadd zero (Q2Qc 0) = Q2Qc 0 /\
  solve_sde (Some failing) (Some failing) (Some start)
            (Q2Qc 1) 1 (Q2Qc 0) (Some failing) w0
  = (Ok (RetPair [Q2Qc 0] [start]), w0).
Proof.
  assert (Hmul : fmul zero (Q2Qc 1) = (zero : Qc))
    by (apply Qc_is_canon; reflexivity).
  assert (Hadd : fadd zero (Q2Qc 0) = Q2Qc 0)
    by (apply Qc_is_canon; reflexivity).
  split; [exact Hmul|]. split; [exact Hadd|].
  exact (@single_step_count Qc console _ _ failing failing start
           (Q2Qc 1) (Q2Qc 0) (Some failing) w0 Hmul Hadd).
Defined.


Example euler_decay_values :
  match euler_ode minus_x [Q2Qc 1] (Q2Qc (1 # 4)) 4 (Q2Qc 0) with
  | Ok (RetPair ti Y) =>
      map this ti = [0; 1 # 4; 1 # 2; 3 # 4]%Q /\
      map (map this) Y = [[1]; [3 # 4]; [9 # 16]; [27 # 64]]%Q
  | _ => False
  end.
Proof. vm_compute. split; reflexivity. Qed.

Lemma two_calls_differ_without_x0 :
  trajectory_of (wiener_example w0)
  <> trajectory_of (wiener_example (snd (wiener_example w0))).
Proof. vm_compute. intros E. discriminate E. Qed.

Example two_calls_values :
  map (map this) (trajectory_of (wiener_example w0)) = [[3]; [4]]%Q /\
  map (map this)
      (trajectory_of (wiener_example (snd (wiener_example w0))))
  = [[4]; [5]]%Q.
Proof. vm_compute. split; reflexivity. Qed.


(** In doubles: with zero diffusion the run is, bit for bit, the Euler
    run; its last row is what Python computes for 99 Euler steps,
    0.3697296376497269, within 0.01 of exp(-0.99). *)
Example decay_scenario_in_doubles :
  fst decay_scenario = euler_ode float_minus_x [1%float] hundredth 100 0%float
  /\ nth_error (trajectory_of decay_scenario) 99
     = Some [0x1.7a9a67f84520ap-2%float]
  /\ PrimFloat.ltb
       (PrimFloat.abs (PrimFloat.sub 0x1.7a9a67f84520ap-2 0x1.7c7e999f9513cp-2))
       hundredth = true.
Proof. vm_compute. repeat split. Qed.

(* ------------------------------------------------------------------ *)
(** ** Concrete runs of the further properties *)

Lemma trajectory_is_rectangular_witness :
  length (trajectory_of demo_run) = length (times_of demo_run) /\
  forall r, In r (trajectory_of demo_run) -> length r = 2.
Proof.
  exact (@trajectory_is_rectangular Qc console _ _ decay squared
           (Some start) (Q2Qc 1) 3 (Q2Qc 0) None w0 _ _ _ demo_run_returns).
Defined.

Lemma nonpositive_step_count_witness :
  (0 <= 0)%Z /\
  initial_state failing (Some start) w0 = (Ok start, w0) /\
  solve_sde (Some failing) (Some failing) (Some start)
            (Q2Qc 1) 0 (Q2Qc 0) (Some failing) w0
  = (Raise IndexError, w0).
Proof.
  split; [lia|]. split; [reflexivity|].
  exact (@nonpositive_step_count Qc console _ _ failing failing
           (Some start) (Q2Qc 1) 0 (Q2Qc 0) (Some failing) w0 start w0
           ltac:(lia) eq_refl).
Defined.

Example negative_step_count :
  solve_sde (Some failing) (Some failing) (Some start)
            (Q2Qc 1) (-1) (Q2Qc 0) (Some failing) w0
  = (Raise ValueError, w0).
Proof. reflexivity. Qed.

Lemma additive_run_returns :
  additive_run
  = (Ok (RetPair (times_of additive_run) (trajectory_of additive_run)),
     snd additive_run).
Proof. vm_compute. reflexivity. Qed.

Lemma additive_noise_witness :
  (forall x : Qc, fsub x x = zero) /\
  fmul half (zero : Qc) = zero /\
  (forall x : Qc, fmul zero x = zero) /\
  fdiv zero (fsqrt (Q2Qc 1)) = (zero : Qc) /\
  (forall x : Qc, fadd x zero = x) /\
  (forall x : Qc, fmul x one = x) /\
  (Z.of_nat 0 <= 3 - 2)%Z /\
  exists yn yn1 ai bi dWi,
    nth_error (trajectory_of additive_run) 0 = Some yn /\
    nth_error (trajectory_of additive_run) 1 = Some yn1 /\
    nth_error yn1 0
    = Some (fadd (fadd (Q2Qc 1) (fmul ai (Q2Qc 1))) (fmul bi dWi)).
Proof.
  assert (L1 : forall x : Qc, fsub x x = zero) by exact Qcplus_opp_r.
  assert (L2 : fmul half (zero : Qc) = zero)
    by (apply Qc_is_canon; reflexivity).
  assert (L3 : forall x : Qc, fmul zero x = zero) by exact Qcmult_0_l.
  assert (L4 : fdiv zero (fsqrt (Q2Qc 1)) = (zero : Qc))
    by (apply Qc_is_canon; reflexivity).
  assert (L5 : forall x : Qc, fadd x zero = x) by exact Qcplus_0_r.
  assert (L6 : forall x : Qc, fmul x one = x) by exact Qcmult_1_r.
  do 6 (split; [assumption|]). split; [lia|].
  destruct (@additive_noise_is_euler_maruyama Qc console _ _ decay
              constant_one (Some start) (Q2Qc 1) 3 (Q2Qc 0) None w0 _ _ _
              L1 L2 L3 L4 L5 L6 additive_run_returns 0%nat ltac:(lia))
    as (x0 & yn & yn1 & tn & a & dW & wa & wb & wc
        & Hx0 & Hyn & Hyn1 & Htn & Ea & Ew & Hlen & Hcomp).
  assert (Hy0 : nth_error yn 0 = Some (Q2Qc 1)).
  { vm_compute in Hyn. injection Hyn as <-. reflexivity. }
  destruct (Hcomp 0 (Q2Qc 1) Hy0) as (ai & bi & dWi & _ & _ & _ & Hnew).
  exists yn, yn1, ai, bi, dWi. repeat split; assumption.
Defined.

(** Seeds 3, 4 make the first noise [3, 4]: row 1 is
    [1 - 1 + 1*3, 2 - 2 + 1*4] = [3, 4]; seeds 5, 6 make row 2
    [3 - 3 + 5, 4 - 4 + 6] = [5, 6]. *)
Example additive_run_values :
  map (map this) (trajectory_of additive_run) = [[1; 2]; [3; 4]; [5; 6]]%Q.
Proof. vm_compute. reflexivity. Qed.

Lemma draws_of_a_call_witness :
  snd demo_run = after_draws (Z.to_nat (3 - 1) * length start) w0.
Proof.
  exact (@draws_of_a_call Qc console _ _ _ _ (Some start) (Q2Qc 1) 3
           (Q2Qc 0) w0 _ _ demo_run_returns).
Defined.


Lemma autonomous_witness :
  autonomous decay /\ autonomous squared /\
  solve_sde (Some decay) (Some squared) (Some start)
            (Q2Qc 1) 3 (Q2Qc 5) None w0
  = with_grid (time_grid 3 (Q2Qc 1) (Q2Qc 5)) demo_run.
Proof.
  assert (Ha : autonomous decay) by (intros y t t' w; reflexivity).
  assert (Hb : autonomous squared) by (intros y t t' w; reflexivity).
  split; [exact Ha|]. split; [exact Hb|].
  exact (@autonomous_trajectory_ignores_t0 Qc console _ _ decay squared
           (Some start) (Q2Qc 1) 3 (Q2Qc 0) (Q2Qc 5) None w0 Ha Hb).
Defined.

Lemma shorter_run_witness :
  (0 < 2 <= 3)%Z /\
  exists w'',
    solve_sde (Some decay) (Some squared) (Some start)
              (Q2Qc 1) 2 (Q2Qc 0) None w0
    = (Ok (RetPair (firstn (Z.to_nat 2) (times_of demo_run))
                   (firstn (Z.to_nat 2) (trajectory_of demo_run))), w'').
Proof.
  split; [lia|].
  exact (@shorter_run_is_a_prefix Qc console _ _ decay squared
           (Some start) (Q2Qc 1) 3 2 (Q2Qc 0) None w0 _ _ _
           demo_run_returns ltac:(lia)).
Defined.

Lemma wiener_process_witness :
  (forall x : Qc, fmul zero x = zero) /\
  (forall x : Qc, fadd x zero = x) /\
  (forall x : Qc, fmul one x = x) /\
  (forall x : Qc, fmul x one = x) /\
  fsub (one : Qc) one = zero /\
  fmul half (zero : Qc) = zero /\
  fdiv zero (fsqrt (Q2Qc 1)) = (zero : Qc) /\
  (0 < 3)%Z /\
  wiener_run
  = (let (z0, w1) := gauss w0 in
     let (zs, w') := draws (Z.to_nat (3 - 1)) w1 in
     (Ok (RetPair (time_grid 3 (Q2Qc 1) (Q2Qc 0))
                  (running_sum (fsqrt (Q2Qc 1)) z0 zs)), w')).
Proof.
  assert (L1 : forall x : Qc, fmul zero x = zero) by exact Qcmult_0_l.
  assert (L2 : forall x : Qc, fadd x zero = x) by exact Qcplus_0_r.
  assert (L3 : forall x : Qc, fmul one x = x) by exact Qcmult_1_l.
  assert (L4 : forall x : Qc, fmul x one = x) by exact Qcmult_1_r.
  assert (L5 : fsub (one : Qc) one = zero)
    by (apply Qc_is_canon; reflexivity).
  assert (L6 : fmul half (zero : Qc) = zero)
    by (apply Qc_is_canon; reflexivity).
  assert (L7 : fdiv zero (fsqrt (Q2Qc 1)) = (zero : Qc))
    by (apply Qc_is_canon; reflexivity).
  do 7 (split; [assumption|]). split; [lia|].
  exact (@wiener_process_is_running_sum Qc console _ _ (Q2Qc 1)
           L1 L2 L3 L4 L5 L6 L7 3 (Q2Qc 0) w0 ltac:(lia)).
Defined.

(** Seeds 3, 4, 5: the path is [3, 3 + 4, 3 + 4 + 5]. *)
Example wiener_run_values :
  map (map this) (trajectory_of wiener_run) = [[3]; [7]; [12]]%Q /\
  seed (snd wiener_run) = 6%Z.
Proof. vm_compute. split; reflexivity. Qed.


Lemma drift_of_wrong_length_witness :
  (2 <= 3)%Z /\
  length [Q2Qc 1; Q2Qc 2; Q2Qc 3] <> length start /\
  length [Q2Qc 1; Q2Qc 2; Q2Qc 3] <> 1 /\ length start <> 1 /\
  solve_sde (Some spatial_drift) (Some squared) (Some start)
            (Q2Qc 1) 3 (Q2Qc 0) (Some (pure_cb unit_noise)) w0
  = (Raise ValueError, w0).
Proof.
  split; [lia|]. do 3 (split; [simpl; lia|]).
  exact (@drift_of_wrong_length Qc console _ _ spatial_drift squared
           start (Q2Qc 1) 3 (Q2Qc 0) (Some (pure_cb unit_noise)) w0
           [Q2Qc 1; Q2Qc 2; Q2Qc 3] _ _ w0 w0 w0
           ltac:(lia) ltac:(simpl; lia) ltac:(simpl; lia) ltac:(simpl; lia)
           eq_refl eq_refl eq_refl).
Defined.

Lemma lorenz_witness :
  length lorenz_start = 3 /\ (0 < 3)%Z /\
  exists Y,
    lorenz_run
    = (Ok (RetPair (time_grid 3 (Q2Qc (1 # 4)) (Q2Qc 0)) Y),
       after_draws (Z.to_nat (3 - 1) * 3) w0) /\
    length Y = Z.to_nat 3 /\ nth_error Y 0 = Some lorenz_start /\
    forall r, In r Y -> length r = 3.
Proof.
  split; [reflexivity|]. split; [lia|].
  exact (proj1 (@lorenz_system_needs_three_variables Qc console _ _
                  lorenz_start (Q2Qc (1 # 4)) 3 (Q2Qc 0) w0)
               eq_refl ltac:(lia)).
Defined.

(** From [[1, 2, 3]] the drift is [[10, 23, -6]] and the diffusion
    [[1, 1, 1]]; with [dt = 1/4], [sqrt(dt) = 1/2] and the draws 3, 4, 5
    the increments are [[3/2, 2, 5/2]].  The support point is
    [[4, 33/4, 2]], where the diffusion is [[33/8, 1, 1]]: the correction
    of the first variable is [0.5*(33/8 - 1)*(9/4 - 1/4)/(1/2) = 25/4], and
    row 1 is [[1 + 10/4 + 3/2 + 25/4, 2 + 23/4 + 2, 3 - 6/4 + 5/2]]. *)
Example lorenz_run_first_step :
  option_map (map this) (nth_error (trajectory_of lorenz_run) 1)
  = Some [45 # 4; 39 # 4; 4]%Q.
Proof. vm_compute. reflexivity. Qed.

Lemma rest_point_witness :
  (forall x : Qc, fmul zero x = zero) /\
  (forall x : Qc, fadd x zero = x) /\
  fsub (zero : Qc) zero = zero /\
  fmul half (zero : Qc) = zero /\
  fdiv zero (fsqrt (Q2Qc 1)) = (zero : Qc) /\
  (forall t, exists z,
      minus_x (VVec origin) t = Ok z /\ zero_value (length origin) z) /\
  (forall t, exists z,
      square (VVec origin) t = Ok z /\ zero_value (length origin) z) /\
  (0 < 3)%Z /\
  exists w',
    solve_sde (Some (pure_cb minus_x)) (Some (pure_cb square)) (Some origin)
              (Q2Qc 1) 3 (Q2Qc 0) None w0
    = (Ok (RetPair (time_grid 3 (Q2Qc 1) (Q2Qc 0)) (repeat origin 3)), w').
Proof.
  assert (L1 : forall x : Qc, fmul zero x = zero) by exact Qcmult_0_l.
  assert (L2 : forall x : Qc, fadd x zero = x) by exact Qcplus_0_r.
  assert (L3 : fsub (zero : Qc) zero = zero)
    by (apply Qc_is_canon; reflexivity).
  assert (L4 : fmul half (zero : Qc) = zero)
    by (apply Qc_is_canon; reflexivity).
  assert (L5 : fdiv zero (fsqrt (Q2Qc 1)) = (zero : Qc))
    by (apply Qc_is_canon; reflexivity).
  assert (Hfa : forall t, exists z,
             minus_x (VVec origin) t = Ok z /\ zero_value (length origin) z).
  { intros t. eexists. split; [reflexivity|]. right. simpl.
    repeat f_equal; apply Qc_is_canon; reflexivity. }
  assert (Hfb : forall t, exists z,
             square (VVec origin) t = Ok z /\ zero_value (length origin) z).
  { intros t. eexists. split; [reflexivity|]. right. simpl.
    repeat f_equal; apply Qc_is_canon; reflexivity. }
  do 5 (split; [assumption|]). split; [exact Hfa|]. split; [exact Hfb|].
  split; [lia|].
  apply (@rest_point_is_kept Qc console _ _ L1 L2 L3 L4 minus_x square
           None (Q2Qc 1) origin L5 Hfa Hfb).
  - intros w. apply default_wiener_shaped.
  - lia.
Defined.

Lemma run_can_be_continued_witness :
  autonomous decay /\ autonomous squared /\ (0 < 2 <= 3)%Z /\
  exists xm wm,
    solve_sde (Some decay) (Some squared) (Some start)
              (Q2Qc 1) 2 (Q2Qc 0) None w0
    = (Ok (RetPair (firstn (Z.to_nat 2) (times_of demo_run))
                   (firstn (Z.to_nat 2) (trajectory_of demo_run))), wm) /\
    nth_error (trajectory_of demo_run) (Z.to_nat (2 - 1)) = Some xm /\
    solve_sde (Some decay) (Some squared) (Some xm)
              (Q2Qc 1) (3 - 2 + 1) (Q2Qc 5) None wm
    = (Ok (RetPair (time_grid (3 - 2 + 1) (Q2Qc 1) (Q2Qc 5))
                   (skipn (Z.to_nat (2 - 1)) (trajectory_of demo_run))),
       snd demo_run).
Proof.
  assert (Ha : autonomous decay) by (intros y t t' w; reflexivity).
  assert (Hb : autonomous squared) by (intros y t t' w; reflexivity).
  split; [exact Ha|]. split; [exact Hb|]. split; [lia|].
  exact (@run_can_be_continued Qc console _ _ decay squared (Some start)
           (Q2Qc 1) 3 2 (Q2Qc 0) (Q2Qc 5) None w0 _ _ _
           Ha Hb demo_run_returns ltac:(lia)).
Defined.

(** The run of two steps from [[1, 2]] ends in [[3, 106]] with the seed
    at 5; the run of two steps from there, with the seeds 5 and 6, ends
    in the last row of the run of three steps. *)
Example continued_run_values :
  map (map this)
      (trajectory_of (solve_sde (Some decay) (Some squared)
                        (Some [Q2Qc 3; Q2Qc 106]) (Q2Qc 1) 2 (Q2Qc 5) None
                        {| seed := 5; stdout := [] |}))
  = [[3; 106]; [909; 2209205466]]%Q.
Proof. vm_compute. reflexivity. Qed.
